(** * The template rewrite engine of @glint/transform

    A shallow embedding of [packages/transform/src/map-template-contents.ts]:
    the scoped emission buffer ([emit], [captureMapping]), the rewrite entry
    point ([mapTemplateContents]) and the line-offset index
    ([calculateLineOffsets]), followed by the properties the specification
    states about them. *)

From Stdlib Require Import ZArith Lia.
From stdpp Require Import base tactics option list strings.

Local Open Scope Z_scope.

(** ** Strings and numbers *)

(** A JavaScript string is a sequence of UTF-16 code units; [length] of the
    list is the string's [.length]. *)
Definition code_unit := N.
Definition jsstring := list code_unit.

Definition len (s : jsstring) : Z := Z.of_nat (length s).

(** String literals of the source, written with their Latin-1 characters. *)
Definition lit (s : string) : jsstring :=
  map Ascii.N_of_ascii (String.list_ascii_of_string s).

(** The line feed, ['\n']. *)
Definition LF : code_unit := 10%N.

(** [segments.join('')]. *)
Definition join (segments : list jsstring) : jsstring := concat segments.

(** The numbers stored in a [Range]. The engine only ever adds and subtracts
    integers; the one non-integer it can produce is the [NaN] that results from
    adding a column to an [undefined] entry of the line table. *)
Inductive number := Int (z : Z) | NaN.

Definition num_add (a b : number) : number :=
  match a, b with Int x, Int y => Int (x + y) | _, _ => NaN end.
Definition num_sub (a b : number) : number :=
  match a, b with Int x, Int y => Int (x - y) | _, _ => NaN end.
(** [a <= b] on numbers: every comparison with [NaN] is false. *)
Definition num_leb (a b : number) : bool :=
  match a, b with Int x, Int y => x <=? y | _, _ => false end.

(** [offsets[i] + column], where [offsets[i]] is [undefined] out of range. *)
Definition undefined_or_add (entry : option Z) (column : Z) : number :=
  match entry with Some base => Int (base + column) | None => NaN end.

(** ** Data model *)

Record Range := { start : number; end_ : number }.

Record Position := { line : nat; column : Z }.
Record SourceLocation := { loc_start : Position; loc_end : Position }.

(** An AST node as far as the engine looks at it: its type tag, its location
    and, for a [TextNode], its [chars]. *)
Record Node := { type : string; loc : SourceLocation; chars : jsstring }.

Record Identifier := { name : jsstring }.

Inductive Source := NodeSource (node : Node) | IdentifierSource (id : Identifier).

(** Modelled from the spec: the [MappingTree] class of [./mapping-tree], of
    which the engine only calls the constructor
    [new MappingTree(outputRange, sourceRange, children, origin)]. *)
#[local] Unset Elimination Schemes.
Inductive MappingTree :=
  MappingNode (outputRange sourceRange : Range)
              (children : list MappingTree) (origin : Source).
#[local] Set Elimination Schemes.

Definition outputRange (t : MappingTree) : Range :=
  match t with MappingNode r _ _ _ => r end.
Definition sourceRange (t : MappingTree) : Range :=
  match t with MappingNode _ r _ _ => r end.
Definition children (t : MappingTree) : list MappingTree :=
  match t with MappingNode _ _ c _ => c end.
Definition origin (t : MappingTree) : Source :=
  match t with MappingNode _ _ _ o => o end.

Record ErrorEntry := { message : jsstring; location : Range }.

Record Rewritten := { code : jsstring; mapping : MappingTree }.
Record RewriteResult := { errors : list ErrorEntry; result : option Rewritten }.

(** A thrown [Error] object. The engine reads nothing but its [message]. *)
Record JsError := { error_message : jsstring }.

(** What a [throw] can throw, as far as the engine tells values apart: a value
    with a [message] to read, taken to be an [Error] object, whose message is
    a string as the type of the errors list has it; or [null] or [undefined],
    of which no property can be read. *)
Inductive JsThrown := ThrownError (e : JsError) | ThrownNull | ThrownUndefined.
Coercion ThrownError : JsError >-> JsThrown.

(** ** The mutable variables of one [mapTemplateContents] call *)

Record State := {
  segmentsStack : list (list jsstring);
  mappingsStack : list (list MappingTree);
  indent : jsstring;
  offset : Z;
  needsIndent : bool;
  collected : list ErrorEntry   (* the local [errors] array *)
}.

Definition set_segmentsStack (v : list (list jsstring)) (st : State) : State :=
  {| segmentsStack := v; mappingsStack := mappingsStack st; indent := indent st;
     offset := offset st; needsIndent := needsIndent st; collected := collected st |}.
Definition set_mappingsStack (v : list (list MappingTree)) (st : State) : State :=
  {| segmentsStack := segmentsStack st; mappingsStack := v; indent := indent st;
     offset := offset st; needsIndent := needsIndent st; collected := collected st |}.
Definition set_indent (v : jsstring) (st : State) : State :=
  {| segmentsStack := segmentsStack st; mappingsStack := mappingsStack st; indent := v;
     offset := offset st; needsIndent := needsIndent st; collected := collected st |}.
Definition set_offset (v : Z) (st : State) : State :=
  {| segmentsStack := segmentsStack st; mappingsStack := mappingsStack st; indent := indent st;
     offset := v; needsIndent := needsIndent st; collected := collected st |}.
Definition set_needsIndent (v : bool) (st : State) : State :=
  {| segmentsStack := segmentsStack st; mappingsStack := mappingsStack st; indent := indent st;
     offset := offset st; needsIndent := v; collected := collected st |}.
Definition set_collected (v : list ErrorEntry) (st : State) : State :=
  {| segmentsStack := segmentsStack st; mappingsStack := mappingsStack st; indent := indent st;
     offset := offset st; needsIndent := needsIndent st; collected := v |}.

(** ** Statements: state passing with exceptions

    A statement either completes normally or throws; in both cases the
    assignments it made to the variables stay. *)

Inductive completion (A : Type) := Normal (a : A) | Thrown (v : JsThrown).
Arguments Normal {A} a.
Arguments Thrown {A} v.

Definition M (A : Type) : Type := State → completion A * State.

#[global] Instance M_ret : MRet M := λ A a st, (Normal a, st).
#[global] Instance M_bind : MBind M := λ A B f m st,
  match m st with
  | (Normal a, st') => f a st'
  | (Thrown v, st') => (Thrown v, st')
  end.

Definition get {A} (field : State → A) : M A := λ st, (Normal (field st), st).
Definition modify (f : State → State) : M unit := λ st, (Normal (), f st).
Definition throw {A} (v : JsThrown) : M A := λ st, (Thrown v, st).

(** [try { body } catch (error) { handler(error) }]. *)
Definition try_catch (body : M unit) (handler : JsThrown → M unit) : M unit := λ st,
  match body st with
  | (Normal (), st') => (Normal (), st')
  | (Thrown v, st') => handler v st'
  end.

(** Calling a method on [undefined] ([stack[0].push(...)] on an empty stack)
    throws a [TypeError]; the message is the engine's and nothing here depends
    on its text. *)
Definition type_error : JsError :=
  {| error_message := lit "Cannot read properties of undefined (reading 'push')" |}.

(** Reading a property of [null] or [undefined] throws a [TypeError] too. *)
Definition null_type_error : JsError :=
  {| error_message := lit "Cannot read properties of null (reading 'message')" |}.
Definition undefined_type_error : JsError :=
  {| error_message := lit "Cannot read properties of undefined (reading 'message')" |}.

(** [error.message]. *)
Definition message_of (error : JsThrown) : M jsstring :=
  match error with
  | ThrownError e => mret (error_message e)
  | ThrownNull => throw null_type_error
  | ThrownUndefined => throw undefined_type_error
  end.

(** [segmentsStack[0].push(...items)]. *)
Definition segments_push (items : list jsstring) : M unit := λ st,
  match segmentsStack st with
  | [] => (Thrown type_error, st)
  | top :: rest => (Normal (), set_segmentsStack ((top ++ items) :: rest) st)
  end.

(** [mappingsStack[0].push(node)]. *)
Definition mappings_push (node : MappingTree) : M unit := λ st,
  match mappingsStack st with
  | [] => (Thrown type_error, st)
  | top :: rest => (Normal (), set_mappingsStack ((top ++ [node]) :: rest) st)
  end.

(** [stack.shift()]: removes and returns the first element ([undefined], read
    here as an empty array, when there is none). *)
Definition mappings_shift : M (list MappingTree) := λ st,
  (Normal (hd [] (mappingsStack st)), set_mappingsStack (tl (mappingsStack st)) st).
Definition segments_shift : M (list jsstring) := λ st,
  (Normal (hd [] (segmentsStack st)), set_segmentsStack (tl (segmentsStack st)) st).

(** ** [captureMapping]

    The argument of [errors.push] is evaluated first: when [error.message]
    throws, on a thrown [null] or [undefined], nothing is pushed, the offset
    is not reset, and the [TypeError] leaves the function before the two
    [shift()] calls.

    The locals [mappings] and [segments] are the two arrays the function puts
    on the stacks before it runs the callback; the model reads them off the
    top of the stacks when the callback is done. They are on top then whenever
    every scope opened inside the callback has taken its own arrays off again,
    which every scope does unless its catch handler fails ([run_appended], for
    drivers that throw [Error] objects). The arrays of a scope whose handler
    failed stay on the stacks for good
    ([depth_never_decreases], [deepened_for_good]). From then
    on the arrays read off the top are not the locals of the source; the depth
    of the stacks, the offset, the errors list and the way each statement
    completes do not depend on what the arrays hold and are the source's, and
    the call ends without a result ([deepened_never_returns]). *)
Definition captureMapping (hbsRange : Range) (source : Source) (callback : M unit) : M unit :=
  start ← get offset;
  modify (λ st, set_segmentsStack ([] :: segmentsStack st) st);;
  modify (λ st, set_mappingsStack ([] :: mappingsStack st) st);;
  try_catch callback (λ error,
    text ← message_of error;
    modify (λ st, set_collected
      (collected st ++ [{| message := text; location := hbsRange |}]) st);;
    modify (set_offset start));;
  mappings ← mappings_shift;
  segments ← segments_shift;
  offset' ← get offset;
  if decide (start ≠ offset') then
    let end' := offset' in
    let tsRange := {| start := Int start; end_ := Int end' |} in
    mappings_push (MappingNode tsRange hbsRange mappings source);;
    segments_push segments
  else mret ().

(** ** The [emit] object *)

Definition emit_indent : M unit :=
  modify (λ st, set_indent (indent st ++ lit "  ") st).

Definition emit_dedent : M unit :=
  modify (λ st, set_indent (drop 2 (indent st)) st).

Definition emit_newline : M unit :=
  modify (λ st, set_offset (offset st + 1) st);;
  segments_push [[LF]];;
  modify (set_needsIndent true).

Definition emit_text (value : jsstring) : M unit :=
  pending ← get needsIndent;
  (if pending : bool then
     modify (λ st, set_offset (offset st + len (indent st)) st);;
     (prefix ← get indent; segments_push [prefix]);;
     modify (set_needsIndent false)
   else mret ());;
  modify (λ st, set_offset (offset st + len value) st);;
  segments_push [value].

Definition emit_identifier (value : jsstring) (hbsOffset : Z) (hbsLength : option Z) : M unit :=
  let hbsLength := default (len value) hbsLength in
  let hbsRange := {| start := Int hbsOffset; end_ := Int (hbsOffset + hbsLength) |} in
  let source := IdentifierSource {| name := value |} in
  captureMapping hbsRange source (emit_text value).

Definition emit_forNode (rangeForNode : Node → Range) (node : Node) (callback : M unit) : M unit :=
  captureMapping (rangeForNode node) (NodeSource node) callback.

(** ** Drivers

    The driver is caller-supplied code. All it can do to the engine is call the
    functions of [emit] (which return nothing), throw, and catch what such a
    call throws. [rangeForNode] is a pure function and is handed to the driver
    as such.

    [driver_code]: the statements a driver or a [forNode] callback can be made
    of, whatever it throws. *)

Inductive driver_code (rangeForNode : Node → Range) : M unit → Prop :=
| code_skip : driver_code rangeForNode (mret ())
| code_newline : driver_code rangeForNode emit_newline
| code_indent : driver_code rangeForNode emit_indent
| code_dedent : driver_code rangeForNode emit_dedent
| code_text value : driver_code rangeForNode (emit_text value)
| code_identifier value hbsOffset hbsLength :
    driver_code rangeForNode (emit_identifier value hbsOffset hbsLength)
| code_forNode node callback :
    driver_code rangeForNode callback →
    driver_code rangeForNode (emit_forNode rangeForNode node callback)
| code_throw thrown : driver_code rangeForNode (throw thrown)
| code_seq first second :
    driver_code rangeForNode first → driver_code rangeForNode second →
    driver_code rangeForNode (first;; second)
| code_try body handler :
    driver_code rangeForNode body → (∀ thrown, driver_code rangeForNode (handler thrown)) →
    driver_code rangeForNode (try_catch body handler).

(** A driver that throws [Error] objects only. No call of [emit] throws
    anything at it ([perform_normal]), so what it or one of its [forNode]
    callbacks does is a sequence of calls, ended or not by a [throw] of its
    own; a [forNode] call carries the calls of its callback. Its calls are
    driver statements ([run_driver_code]). *)

#[local] Unset Elimination Schemes.
Inductive call :=
| Newline
| Indent
| Dedent
| Text (value : jsstring)
| IdentifierCall (value : jsstring) (hbsOffset : Z) (hbsLength : option Z)
| ForNode (node : Node) (callback : list call)
| Throw (error : JsError).
#[local] Set Elimination Schemes.

Definition driver := Node → (Node → Range) → list call.

Section Perform.
Variable rangeForNode : Node → Range.

Fixpoint perform (c : call) : M unit :=
  match c with
  | Newline => emit_newline
  | Indent => emit_indent
  | Dedent => emit_dedent
  | Text value => emit_text value
  | IdentifierCall value hbsOffset hbsLength => emit_identifier value hbsOffset hbsLength
  | ForNode node callback =>
      emit_forNode rangeForNode node
        ((fix run (body : list call) : M unit :=
            match body with
            | [] => mret ()
            | c :: rest => perform c;; run rest
            end) callback)
  | Throw error => throw error
  end.

Fixpoint run (body : list call) : M unit :=
  match body with
  | [] => mret ()
  | c :: rest => perform c;; run rest
  end.
End Perform.

(** ** [calculateLineOffsets] *)

(** [template.split('\n')]: always at least one line. *)
Fixpoint split_lines (template : jsstring) : list jsstring :=
  match template with
  | [] => [[]]
  | c :: rest =>
      if (c =? LF)%N then [] :: split_lines rest
      else match split_lines rest with
           | [] => [[c]]
           | current :: more => (c :: current) :: more
           end
  end.

(** [offsets[i] = v] on a dense array: an index below the length overwrites,
    the index equal to the length appends (the only out-of-range index the
    loop below writes to, see [offsets_loop_length]). *)
Definition array_set (offsets : list Z) (i : nat) (v : Z) : list Z :=
  if (i <? length offsets)%nat then <[i := v]> offsets else offsets ++ [v].

(** The [for (let [index, line] of lines.entries())] loop. *)
Fixpoint offsets_loop (index : nat) (lines : list jsstring) (total : Z) (offsets : list Z)
  : list Z :=
  match lines with
  | [] => offsets
  | line :: rest =>
      offsets_loop (S index) rest (total + (len line + 1)) (array_set offsets (index + 1) total)
  end.

(** [\s] of a JavaScript regular expression, on UTF-16 code units. *)
Definition is_whitespace (c : code_unit) : bool :=
  ((9 <=? c) && (c <=? 13) || (c =? 32) || (c =? 160) || (c =? 5760)
   || (8192 <=? c) && (c <=? 8202) || (c =? 8232) || (c =? 8233) || (c =? 8239)
   || (c =? 8287) || (c =? 12288) || (c =? 65279))%N.

(** [/^\s+/.exec(s)]: the longest run of whitespace at the start, when it is
    not empty. *)
Fixpoint whitespace_prefix (s : jsstring) : jsstring :=
  match s with
  | c :: rest => if is_whitespace c then c :: whitespace_prefix rest else []
  | [] => []
  end.
Definition LEADING_WHITESPACE_exec (s : jsstring) : option jsstring :=
  match whitespace_prefix s with [] => None | m => Some m end.

(** [/\s+$/.exec(s)]: the first position from which the rest of the string is
    whitespace up to its end, when there is one before the end. *)
Fixpoint TRAILING_WHITESPACE_exec (s : jsstring) : option jsstring :=
  match s with
  | [] => None
  | c :: rest => if forallb is_whitespace s then Some s else TRAILING_WHITESPACE_exec rest
  end.

(** [re.exec(s)?.[0].length ?? 0]. *)
Definition match_length (m : option jsstring) : Z :=
  match m with Some matched => len matched | None => 0 end.

Definition calculateLineOffsets (template : jsstring) : Node → Range :=
  let lines := split_lines template in
  let offsets := offsets_loop 0 lines 0 [0] in
  λ node,
    let start := undefined_or_add (offsets !! line (loc_start (loc node))) (column (loc_start (loc node))) in
    let end' := undefined_or_add (offsets !! line (loc_end (loc node))) (column (loc_end (loc node))) in
    if decide (type node = "TextNode") then
      let leading := match_length (LEADING_WHITESPACE_exec (chars node)) in
      let trailing := match_length (TRAILING_WHITESPACE_exec (chars node)) in
      if decide (leading ≠ len (chars node)) then
        {| start := num_add start (Int leading); end_ := num_sub end' (Int trailing) |}
      else {| start := start; end_ := end' |}
    else {| start := start; end_ := end' |}.

(** ** [mapTemplateContents] *)

Inductive ParseResult := Parsed (ast : Node) | SyntaxError (error : JsError).

(** How a call of [mapTemplateContents] ends: with a value, with the exception
    the driver threw, or with the failed [assert]. *)
Inductive Outcome :=
| Returns (r : RewriteResult)
| Throws (thrown : JsThrown)
| AssertionFailed.

Definition initial : State :=
  {| segmentsStack := [[]]; mappingsStack := [[]]; indent := []; offset := 0;
     needsIndent := false; collected := [] |}.

Section Rewrite.
(** [preprocess] of @glimmer/syntax, the external parser. *)
Variable preprocess : jsstring → ParseResult.

(** The function, with the driver as the statement it runs. *)
Definition mapTemplateContents_with (template : jsstring)
    (callback : Node → (Node → Range) → M unit) : Outcome :=
  match preprocess template with
  | SyntaxError error =>
      Returns {| errors := [{| message := error_message error;
                               location := {| start := Int 0; end_ := Int (len template) |} |}];
                 result := None |}
  | Parsed ast =>
      let rangeForNode := calculateLineOffsets template in
      match callback ast rangeForNode initial with
      | (Thrown thrown, _) => Throws thrown
      | (Normal (), st) =>
          if decide (length (segmentsStack st) = 1%nat) then
            let code := join (hd [] (segmentsStack st)) in
            let mapping :=
              MappingNode {| start := Int 0; end_ := Int (len code) |}
                          (rangeForNode ast) (hd [] (mappingsStack st)) (NodeSource ast) in
            Returns {| errors := collected st;
                       result := Some {| code := code; mapping := mapping |} |}
          else AssertionFailed
      end
  end.

(** The function, on a driver that throws [Error] objects only. *)
Definition mapTemplateContents (template : jsstring) (callback : driver) : Outcome :=
  mapTemplateContents_with template
    (λ ast rangeForNode, run rangeForNode (callback ast rangeForNode)).
End Rewrite.

(** ** Vocabulary of the properties *)

(** A state with an open scope: neither stack is empty. *)
Definition scoped (st : State) : Prop :=
  segmentsStack st ≠ [] ∧ mappingsStack st ≠ [].

(** [stack[0].push(...items)] on a stack that has a top. *)
Definition push_top {A} (items : list A) (stack : list (list A)) : list (list A) :=
  match stack with
  | [] => []
  | top :: rest => (top ++ items) :: rest
  end.

(** [nested lo maps hi]: the trees of [maps] come in output order, none is
    empty, none overlaps the next, all lie between [lo] and [hi], and the
    children of each lie in the same way within its own output range. *)
Inductive nested : Z → list MappingTree → Z → Prop :=
| nested_nil lo hi : lo ≤ hi → nested lo [] hi
| nested_cons lo s e hi src cs o rest :
    lo ≤ s → s < e → nested s cs e → nested e rest hi →
    nested lo (MappingNode {| start := Int s; end_ := Int e |} src cs o :: rest) hi.

(** [appended st st' segs maps errs]: from [st] to [st'] the segment list on
    top gained [segs], the child list on top gained [maps], the offset grew by
    the length of [segs], the errors list gained [errs], and nothing below the
    top of either stack changed. *)
Record appended (st st' : State) (segs : list jsstring) (maps : list MappingTree)
    (errs : list ErrorEntry) : Prop := {
  app_segments : segmentsStack st' = push_top segs (segmentsStack st);
  app_mappings : mappingsStack st' = push_top maps (mappingsStack st);
  app_offset : offset st' = offset st + len (join segs);
  app_nested : nested (offset st) maps (offset st');
  app_errors : collected st' = collected st ++ errs
}.

(** The state in which [captureMapping] runs its callback. *)
Definition enter (st : State) : State :=
  set_mappingsStack ([] :: mappingsStack st) (set_segmentsStack ([] :: segmentsStack st) st).

(** [st] with the two stacks replaced. *)
Definition restack (ss : list (list jsstring)) (ms : list (list MappingTree)) (st : State)
  : State := set_segmentsStack ss (set_mappingsStack ms st).


(** A call that throws nowhere, at no depth. *)
Fixpoint throw_free (c : call) : bool :=
  match c with
  | Throw _ => false
  | ForNode _ callback => forallb throw_free callback
  | _ => true
  end.

(** The first [throw] among the calls a driver makes outside every scope. *)
Fixpoint first_throw (body : list call) : option JsError :=
  match body with
  | [] => None
  | Throw e :: _ => Some e
  | _ :: rest => first_throw rest
  end.

(** ** Sample inputs *)

Definition node_at (tag : string) (l1 : nat) (c1 : Z) (l2 : nat) (c2 : Z) : Node :=
  {| type := tag;
     loc := {| loc_start := {| line := l1; column := c1 |};
               loc_end := {| line := l2; column := c2 |} |};
     chars := [] |}.

Definition sample_template : jsstring := lit "abc".
Definition sample_ast : Node := node_at "Template" 1 0 1 3.
Definition sample_node : Node := node_at "MustacheStatement" 1 1 1 2.
Definition sample_parser : jsstring → ParseResult := λ _, Parsed sample_ast.
Definition failing_parser : jsstring → ParseResult :=
  λ _, SyntaxError {| error_message := lit "unclosed block" |}.
Definition sample_rangeForNode : Node → Range := calculateLineOffsets sample_template.
Definition boom : JsError := {| error_message := lit "boom" |}.
Definition inner_boom : JsError := {| error_message := lit "inner" |}.

(** [(ast, { emit }) => emit.forNode(ast, () => { throw null })]. *)
Definition null_driver : Node → (Node → Range) → M unit :=
  λ ast rangeForNode, emit_forNode rangeForNode ast (throw ThrownNull).

(** [(ast, { emit }) =>
      emit.forNode(ast, () => emit.forNode(ast, () => { throw null }))]. *)
Definition nested_null_driver : Node → (Node → Range) → M unit :=
  λ ast rangeForNode,
    emit_forNode rangeForNode ast (emit_forNode rangeForNode ast (throw ThrownNull)).

(** ** The containment invariant, as the specification words it *)

(** [inner] lies within [outer]. *)
Definition range_within (inner outer : Range) : bool :=
  num_leb (start outer) (start inner) && num_leb (end_ inner) (end_ outer).

(** Ranges in order of their starts, none reaching into a later one. *)
Fixpoint siblings_apart (ranges : list Range) : bool :=
  match ranges with
  | [] => true
  | r :: rest =>
      forallb (λ r', num_leb (start r) (start r') && num_leb (end_ r) (start r')) rest
      && siblings_apart rest
  end.

(** At every node: each child's output range within the node's, and the
    children's output ranges in order and apart. *)
Fixpoint output_containment (t : MappingTree) : bool :=
  match t with
  | MappingNode out _ cs _ =>
      forallb (λ c, range_within (outputRange c) out && output_containment c) cs
      && siblings_apart (map outputRange cs)
  end.

(** At every node: each child's source range within the node's. *)
Fixpoint source_containment (t : MappingTree) : bool :=
  match t with
  | MappingNode _ src cs _ =>
      forallb (λ c, range_within (sourceRange c) src && source_containment c) cs
  end.

Definition containment_invariant (t : MappingTree) : bool :=
  output_containment t && source_containment t.

(** The mapping tree of a call that returned a result. *)
Definition produced_mapping (o : Outcome) : option MappingTree :=
  match o with
  | Returns {| result := Some rw |} => Some (mapping rw)
  | _ => None
  end.

(** The code of a call that returned a result. *)
Definition produced_code (o : Outcome) : option jsstring :=
  match o with
  | Returns {| result := Some rw |} => Some (code rw)
  | _ => None
  end.

(** ** Text covered by the root's children *)

(** [code.substring(s, e)] for [0 <= s <= e]. *)
Definition substring (text : jsstring) (s e : Z) : jsstring :=
  take (Z.to_nat e - Z.to_nat s) (drop (Z.to_nat s) text).

Definition covered_text (text : jsstring) (r : Range) : jsstring :=
  match start r, end_ r with
  | Int s, Int e => substring text s e
  | _, _ => []
  end.

(** The substrings of [text] covered by the children of [t], concatenated in
    order. *)
Definition children_text (text : jsstring) (t : MappingTree) : jsstring :=
  concat (map (λ c, covered_text text (outputRange c)) (children t)).

(** A call that puts text on the output outside a scope of its own. *)
Definition emits_unscoped (c : call) : bool :=
  match c with
  | Text _ | Newline => true
  | _ => false
  end.

(** [abutting lo maps hi]: the output ranges of [maps] follow one another
    from [lo] to [hi] with nothing between them. *)
Fixpoint abutting (lo : Z) (maps : list MappingTree) (hi : Z) : Prop :=
  match maps with
  | [] => lo = hi
  | m :: rest =>
      ∃ e, outputRange m = {| start := Int lo; end_ := Int e |} ∧ lo ≤ e ∧ abutting e rest hi
  end.

(** ** Indentation *)

(** A call that calls [newline()] nowhere, at no depth. *)
Fixpoint newline_free (c : call) : bool :=
  match c with
  | Newline => false
  | ForNode _ callback => forallb newline_free callback
  | _ => true
  end.

(** Two states that differ at most in the indentation prefix. *)
Definition same_but_indent (a b : State) : Prop :=
  segmentsStack a = segmentsStack b ∧ mappingsStack a = mappingsStack b ∧
  offset a = offset b ∧ needsIndent a = needsIndent b ∧ collected a = collected b.

(** Two runs that complete alike and leave states that differ at most in the
    prefix, with no indentation pending. *)
Definition agree (r1 r2 : completion () * State) : Prop :=
  r1.1 = r2.1 ∧ same_but_indent r1.2 r2.2 ∧ needsIndent r2.2 = false.

(** ** Line and column, as the specification words them *)

(** The absolute offset at which the 1-indexed line [n] starts: the lengths of
    the lines before it, each counted with its line terminator. *)
Definition line_start (lines : list jsstring) (n : nat) : Z :=
  foldr (λ l acc, len l + 1 + acc) 0 (take (n - 1) lines).

(** The absolute offset of a position; there is none past the last line. *)
Definition position_offset (template : jsstring) (p : Position) : number :=
  let lines := split_lines template in
  if decide (line p ≤ length lines)%nat
  then Int (line_start lines (line p) + column p) else NaN.

Definition entirely_whitespace (s : jsstring) : bool := forallb is_whitespace s.

(** How many whitespace characters [s] starts with, and ends with. *)
Definition leading_whitespace (s : jsstring) : Z := len (whitespace_prefix s).
Definition trailing_whitespace (s : jsstring) : Z := len (whitespace_prefix (rev s)).

(** The running totals the loop of [calculateLineOffsets] writes. *)
Fixpoint running_totals (total : Z) (lines : list jsstring) : list Z :=
  match lines with
  | [] => []
  | l :: rest => total :: running_totals (total + (len l + 1)) rest
  end.

(** The lines put together again, with a line terminator between them. *)
Fixpoint unsplit (lines : list jsstring) : jsstring :=
  match lines with
  | [] => []
  | [l] => l
  | l :: rest => l ++ [LF] ++ unsplit rest
  end.

(** A run that does not end with a thrown [null] or [undefined]. *)
Definition throws_errors_only {A} (r : completion A * State) : Prop :=
  match r.1 with
  | Thrown ThrownNull | Thrown ThrownUndefined => False
  | _ => True
  end.

(** [deepened st st']: both stacks are deeper in [st'] than in [st]; a scope
    opened in between has left its arrays on them. *)
Definition deepened (st st' : State) : Prop :=
  (length (segmentsStack st) < length (segmentsStack st'))%nat ∧
  (length (mappingsStack st) < length (mappingsStack st'))%nat.

(** From [st] to [st'] either text, nodes and errors were appended and the
    stacks are otherwise what they were, or the stacks have grown deeper. *)
Definition appended_or_deepened (st st' : State) : Prop :=
  (∃ segs maps errs, appended st st' segs maps errs) ∨ deepened st st'.

(** ** A reading of a driver without stacks

    What a sequence of calls amounts to, computed by recursion on the calls:
    the text they leave, the nodes they leave for the enclosing scope, the
    errors they record, the indentation state afterwards, and the exception
    they end with, if any. [off] is the output offset at which they start. *)

Record Pen := { pen_indent : jsstring; pen_pending : bool }.

Definition pen_of (st : State) : Pen :=
  {| pen_indent := indent st; pen_pending := needsIndent st |}.

Record Emitted := {
  em_text : jsstring;
  em_nodes : list MappingTree;
  em_errors : list ErrorEntry;
  em_pen : Pen;
  em_thrown : option JsError
}.

(** The text one [text(value)] call leaves. *)
Definition text_with_indent (p : Pen) (value : jsstring) : jsstring :=
  if pen_pending p then pen_indent p ++ value else value.

(** The node of a scope that left [text] at [off]: none when it left nothing. *)
Definition scope_node (off : Z) (text : jsstring) (hbsRange : Range)
    (inner : list MappingTree) (source : Source) : list MappingTree :=
  if decide (len text = 0) then []
  else [MappingNode {| start := Int off; end_ := Int (off + len text) |} hbsRange inner source].

Definition nothing_emitted (p : Pen) (thrown : option JsError) : Emitted :=
  {| em_text := []; em_nodes := []; em_errors := []; em_pen := p; em_thrown := thrown |}.

Section Reading.
Variable rangeForNode : Node → Range.

Fixpoint emitted_by_call (c : call) (p : Pen) (off : Z) : Emitted :=
  match c with
  | Newline =>
      {| em_text := [LF]; em_nodes := []; em_errors := [];
         em_pen := {| pen_indent := pen_indent p; pen_pending := true |};
         em_thrown := None |}
  | Indent =>
      nothing_emitted {| pen_indent := pen_indent p ++ lit "  "; pen_pending := pen_pending p |} None
  | Dedent =>
      nothing_emitted {| pen_indent := drop 2 (pen_indent p); pen_pending := pen_pending p |} None
  | Text value =>
      {| em_text := text_with_indent p value; em_nodes := []; em_errors := [];
         em_pen := {| pen_indent := pen_indent p; pen_pending := false |};
         em_thrown := None |}
  | IdentifierCall value hbsOffset hbsLength =>
      let text := text_with_indent p value in
      {| em_text := text;
         em_nodes :=
           scope_node off text
             {| start := Int hbsOffset;
                end_ := Int (hbsOffset + default (len value) hbsLength) |}
             [] (IdentifierSource {| name := value |});
         em_errors := [];
         em_pen := {| pen_indent := pen_indent p; pen_pending := false |};
         em_thrown := None |}
  | ForNode node callback =>
      let inner :=
        (fix emitted_by (body : list call) (p : Pen) (off : Z) : Emitted :=
           match body with
           | [] => nothing_emitted p None
           | c :: rest =>
               let first := emitted_by_call c p off in
               match em_thrown first with
               | Some _ => first
               | None =>
                   let others := emitted_by rest (em_pen first) (off + len (em_text first)) in
                   {| em_text := em_text first ++ em_text others;
                      em_nodes := em_nodes first ++ em_nodes others;
                      em_errors := em_errors first ++ em_errors others;
                      em_pen := em_pen others;
                      em_thrown := em_thrown others |}
               end
           end) callback p off in
      match em_thrown inner with
      | Some error =>
          {| em_text := []; em_nodes := [];
             em_errors := em_errors inner ++
               [{| message := error_message error; location := rangeForNode node |}];
             em_pen := em_pen inner; em_thrown := None |}
      | None =>
          {| em_text := em_text inner;
             em_nodes := scope_node off (em_text inner) (rangeForNode node)
                           (em_nodes inner) (NodeSource node);
             em_errors := em_errors inner;
             em_pen := em_pen inner; em_thrown := None |}
      end
  | Throw error => nothing_emitted p (Some error)
  end.

Fixpoint emitted_by (body : list call) (p : Pen) (off : Z) : Emitted :=
  match body with
  | [] => nothing_emitted p None
  | c :: rest =>
      let first := emitted_by_call c p off in
      match em_thrown first with
      | Some _ => first
      | None =>
          let others := emitted_by rest (em_pen first) (off + len (em_text first)) in
          {| em_text := em_text first ++ em_text others;
             em_nodes := em_nodes first ++ em_nodes others;
             em_errors := em_errors first ++ em_errors others;
             em_pen := em_pen others;
             em_thrown := em_thrown others |}
      end
  end.
End Reading.

(** What [mapTemplateContents] amounts to on an input the parser accepts. *)
Definition rewritten_by (template : jsstring) (callback : driver) (ast : Node) : Outcome :=
  let rangeForNode := calculateLineOffsets template in
  let whole :=
    emitted_by rangeForNode (callback ast rangeForNode)
      {| pen_indent := []; pen_pending := false |} 0 in
  match em_thrown whole with
  | Some error => Throws error
  | None =>
      Returns {| errors := em_errors whole;
                 result := Some {| code := em_text whole;
                                   mapping :=
                                     MappingNode
                                       {| start := Int 0; end_ := Int (len (em_text whole)) |}
                                       (rangeForNode ast) (em_nodes whole) (NodeSource ast) |} |}
  end.

(** [tells st st' comp r]: the step from [st] to [st'] that completed as
    [comp] left the text, nodes, errors, indentation state and exception that
    [r] says. *)
Definition tells (st st' : State) (comp : completion ()) (r : Emitted) : Prop :=
  (∃ segs, appended st st' segs (em_nodes r) (em_errors r) ∧ join segs = em_text r) ∧
  pen_of st' = em_pen r ∧
  comp = match em_thrown r with Some e => Thrown e | None => Normal () end.

(** ** Properties of every node of a tree *)

(** [P] holds of [t] and of every node below it. *)
#[local] Unset Elimination Schemes.
Inductive all_nodes (P : MappingTree → Prop) : MappingTree → Prop :=
| all_nodes_intro t : P t → Forall (all_nodes P) (children t) → all_nodes P t.
#[local] Set Elimination Schemes.

(** A node whose output range is a non-empty integer range. *)
Definition covers_text (t : MappingTree) : Prop :=
  ∃ s e, outputRange t = {| start := Int s; end_ := Int e |} ∧ s < e.

(** A node with an AST node as origin has that node's range as source range;
    a node with an identifier as origin has no children. *)
Definition origin_consistent (rangeForNode : Node → Range) (t : MappingTree) : Prop :=
  match origin t with
  | NodeSource node => sourceRange t = rangeForNode node
  | IdentifierSource _ => children t = []
  end.

(** The errors of a call that returned. *)
Definition produced_errors (o : Outcome) : option (list ErrorEntry) :=
  match o with
  | Returns r => Some (errors r)
  | _ => None
  end.

(** The nodes a call passes to [forNode], at any depth. *)
Fixpoint scope_nodes (c : call) : list Node :=
  match c with
  | ForNode node callback => node :: flat_map scope_nodes callback
  | _ => []
  end.

(** The errors a call throws, at any depth. *)
Fixpoint thrown_errors (c : call) : list JsError :=
  match c with
  | ForNode _ callback => flat_map thrown_errors callback
  | Throw error => [error]
  | _ => []
  end.

(** An error entry made of the message of one of [thrown] and the range of
    one of [nodes]. *)
Definition entry_from (rangeForNode : Node → Range) (nodes : list Node)
    (thrown : list JsError) (entry : ErrorEntry) : Prop :=
  (∃ node, node ∈ nodes ∧ location entry = rangeForNode node) ∧
  (∃ error, error ∈ thrown ∧ message entry = error_message error).

(** ** Indentation prefixes *)

(** [k] indentation units, two spaces each. *)
Definition indent_units (k : nat) : jsstring := concat (replicate k (lit "  ")).

(** ** Lines of a template *)

(** The number of line feeds in a template. *)
Fixpoint count_line_breaks (template : jsstring) : nat :=
  match template with
  | [] => 0
  | c :: rest => if (c =? LF)%N then S (count_line_breaks rest) else count_line_breaks rest
  end.

(** The same location under a type tag other than [TextNode]. *)
Definition as_element (node : Node) : Node :=
  {| type := "ElementNode"; loc := loc node; chars := chars node |}.
(** * Properties *)

(** ** Induction on drivers *)

Lemma call_ind (P : call → Prop) :
  P Newline → P Indent → P Dedent →
  (∀ value, P (Text value)) →
  (∀ value hbsOffset hbsLength, P (IdentifierCall value hbsOffset hbsLength)) →
  (∀ node callback, Forall P callback → P (ForNode node callback)) →
  (∀ error, P (Throw error)) →
  ∀ c, P c.
Proof.
  intros Hn Hi Hd Ht Hid Hf Hth.
  fix IH 1. intros [| | | value | value o l | node callback | error].
  - exact Hn.
  - exact Hi.
  - exact Hd.
  - apply Ht.
  - apply Hid.
  - apply Hf. induction callback as [|c rest IHrest]; constructor.
    + apply IH.
    + exact IHrest.
  - apply Hth.
Qed.

Lemma perform_ForNode rangeForNode node callback :
  perform rangeForNode (ForNode node callback) =
    emit_forNode rangeForNode node (run rangeForNode callback).
Proof. reflexivity. Qed.

Lemma captureMapping_ext hbsRange source callback callback' st :
  (∀ t, callback t = callback' t) →
  captureMapping hbsRange source callback st = captureMapping hbsRange source callback' st.
Proof.
  intros Hext. unfold captureMapping, mbind, M_bind, try_catch, get, modify. cbn.
  by rewrite Hext.
Qed.

(** An [identifier] call is a scope around one [text] call. *)
Lemma perform_IdentifierCall rangeForNode value hbsOffset hbsLength st :
  perform rangeForNode (IdentifierCall value hbsOffset hbsLength) st =
    captureMapping
      {| start := Int hbsOffset; end_ := Int (hbsOffset + default (len value) hbsLength) |}
      (IdentifierSource {| name := value |}) (run rangeForNode [Text value]) st.
Proof.
  cbn [perform]. unfold emit_identifier. apply captureMapping_ext.
  intros t. cbn [run perform]. unfold mbind, M_bind.
  by destruct (emit_text value t) as [[[]|e] t'].
Qed.

(** ** The frame of a call *)

Lemma len_app (a b : jsstring) : len (a ++ b) = len a + len b.
Proof. unfold len. rewrite length_app. lia. Qed.

Lemma len_nonneg (a : jsstring) : 0 ≤ len a.
Proof. unfold len. lia. Qed.

Lemma join_app (a b : list jsstring) : join (a ++ b) = join a ++ join b.
Proof. apply concat_app. Qed.

Lemma push_top_nil {A} (stack : list (list A)) : push_top [] stack = stack.
Proof. destruct stack; simpl; [done|]. by rewrite app_nil_r. Qed.

Lemma push_top_app {A} (a b : list A) stack :
  push_top b (push_top a stack) = push_top (a ++ b) stack.
Proof. destruct stack; simpl; [done|]. by rewrite app_assoc. Qed.

Lemma push_top_length {A} (a : list A) stack : length (push_top a stack) = length stack.
Proof. by destruct stack. Qed.

Lemma push_top_not_nil {A} (a : list A) stack : stack ≠ [] → push_top a stack ≠ [].
Proof. by destruct stack. Qed.

Lemma nested_le lo maps hi : nested lo maps hi → lo ≤ hi.
Proof. induction 1; lia. Qed.

Lemma nested_weaken lo lo' maps hi : lo' ≤ lo → nested lo maps hi → nested lo' maps hi.
Proof. intros Hle H. inversion H; subst; constructor; auto; lia. Qed.

Lemma nested_app lo a mid b hi : nested lo a mid → nested mid b hi → nested lo (a ++ b) hi.
Proof.
  induction 1 as [lo mid Hle | lo s e mid src cs o rest Hlo Hse Hcs _ Hrest IH]; intros Hb; simpl.
  - by eapply nested_weaken.
  - constructor; auto.
Qed.

Lemma appended_refl st : appended st st [] [] [].
Proof.
  split.
  - by rewrite push_top_nil.
  - by rewrite push_top_nil.
  - change (len (join [])) with 0. lia.
  - constructor. lia.
  - by rewrite app_nil_r.
Qed.

Lemma appended_set_indent st v : appended st (set_indent v st) [] [] [].
Proof. destruct (appended_refl st). by split. Qed.

Lemma appended_trans st1 st2 st3 s1 m1 e1 s2 m2 e2 :
  appended st1 st2 s1 m1 e1 → appended st2 st3 s2 m2 e2 →
  appended st1 st3 (s1 ++ s2) (m1 ++ m2) (e1 ++ e2).
Proof.
  intros [] []. split.
  - by rewrite <- push_top_app; congruence.
  - by rewrite <- push_top_app; congruence.
  - rewrite join_app, len_app. lia.
  - eapply nested_app; [eassumption|]. congruence.
  - rewrite app_assoc. congruence.
Qed.

Lemma appended_scoped st st' segs maps errs :
  scoped st → appended st st' segs maps errs → scoped st'.
Proof.
  intros [Hs Hm] []. split; [rewrite app_segments0 | rewrite app_mappings0];
    by apply push_top_not_nil.
Qed.

(** ** What each function of [emit] does to a state with an open scope *)

Lemma enter_scoped st : scoped (enter st).
Proof. by split. Qed.

Ltac open_state st :=
  let ss := fresh "ss" in let ms := fresh "ms" in
  let Hs := fresh "Hs" in let Hm := fresh "Hm" in
  intros [Hs Hm]; destruct st as [ss ms ? ? ? ?]; simpl in Hs, Hm;
  destruct ss; [done|]; destruct ms; [done|].

Lemma emit_indent_run st :
  emit_indent st = (Normal (), set_indent (indent st ++ lit "  ") st).
Proof. reflexivity. Qed.

Lemma emit_dedent_run st :
  emit_dedent st = (Normal (), set_indent (drop 2 (indent st)) st).
Proof. reflexivity. Qed.

Lemma emit_newline_run st :
  scoped st →
  emit_newline st =
    (Normal (), set_needsIndent true
       (set_segmentsStack (push_top [[LF]] (segmentsStack st)) (set_offset (offset st + 1) st))).
Proof. revert st. intros st. open_state st. reflexivity. Qed.

Ltac unfold_statements :=
  unfold mbind, M_bind, mret, M_ret, try_catch, get, modify, throw, message_of,
    segments_push, mappings_push, segments_shift, mappings_shift,
    set_segmentsStack, set_mappingsStack, set_indent, set_offset,
    set_needsIndent, set_collected; cbn.

Lemma emit_text_run value st :
  scoped st →
  emit_text value st =
    (Normal (),
     let segs := if needsIndent st then [indent st; value] else [value] in
     set_needsIndent false
       (set_segmentsStack (push_top segs (segmentsStack st))
          (set_offset (offset st + len (join segs)) st))).
Proof.
  revert st. intros st. open_state st.
  destruct needsIndent0; unfold emit_text; unfold_statements.
  - rewrite <- app_assoc. cbn. rewrite app_nil_r, len_app. by rewrite Z.add_assoc.
  - by rewrite app_nil_r.
Qed.

Lemma captureMapping_thrown hbsRange source callback st (e : JsError) st2 :
  scoped st →
  callback (enter st) = (Thrown e, st2) →
  captureMapping hbsRange source callback st =
    (Normal (),
     set_segmentsStack (tl (segmentsStack st2))
       (set_mappingsStack (tl (mappingsStack st2))
          (set_offset (offset st)
             (set_collected
                (collected st2 ++ [{| message := error_message e; location := hbsRange |}])
                st2)))).
Proof.
  intros _ Hcb. unfold captureMapping, mbind, M_bind, try_catch, get, modify. cbn.
  unfold enter in Hcb. rewrite Hcb. unfold_statements.
  by rewrite decide_False by (intros H; apply H; reflexivity).
Qed.

(** When the callback throws [null] or [undefined], the catch handler throws
    in its turn: nothing is recorded, the offset is not reset, and the scope's
    arrays stay on the stacks. *)
Lemma captureMapping_thrown_null hbsRange source callback st st2 :
  callback (enter st) = (Thrown ThrownNull, st2) →
  captureMapping hbsRange source callback st = (Thrown null_type_error, st2).
Proof.
  intros Hcb. unfold captureMapping, mbind, M_bind, try_catch, get, modify. cbn.
  unfold enter in Hcb. by rewrite Hcb.
Qed.

Lemma captureMapping_thrown_undefined hbsRange source callback st st2 :
  callback (enter st) = (Thrown ThrownUndefined, st2) →
  captureMapping hbsRange source callback st = (Thrown undefined_type_error, st2).
Proof.
  intros Hcb. unfold captureMapping, mbind, M_bind, try_catch, get, modify. cbn.
  unfold enter in Hcb. by rewrite Hcb.
Qed.

(** What the engine itself throws is a [TypeError], never [null] or
    [undefined]. *)
Lemma captureMapping_throws_errors_only hbsRange source callback st :
  throws_errors_only (captureMapping hbsRange source callback st).
Proof.
  unfold throws_errors_only, captureMapping, mbind, M_bind, try_catch, get, modify. cbn.
  destruct (callback _) as [[[]|[e| |]] st2]; unfold_statements; try done.
  - destruct (decide _); unfold_statements; [|done].
    destruct (tl (mappingsStack st2)); unfold_statements; [done|].
    destruct (tl (segmentsStack st2)); done.
  - destruct (decide _); unfold_statements; [|done].
    destruct (tl (mappingsStack st2)); unfold_statements; [done|].
    destruct (tl (segmentsStack st2)); done.
Qed.

Lemma emit_newline_throws_errors_only st : throws_errors_only (emit_newline st).
Proof.
  unfold throws_errors_only, emit_newline. unfold_statements.
  by destruct (segmentsStack st).
Qed.

Lemma emit_text_throws_errors_only value st : throws_errors_only (emit_text value st).
Proof.
  unfold throws_errors_only, emit_text. unfold_statements.
  destruct (needsIndent st); unfold_statements; destruct (segmentsStack st); done.
Qed.

Lemma perform_throws_errors_only rangeForNode c st :
  throws_errors_only (perform rangeForNode c st).
Proof.
  destruct c as [| | | value | value o l | node callback | error]; cbn [perform].
  - apply emit_newline_throws_errors_only.
  - done.
  - done.
  - apply emit_text_throws_errors_only.
  - apply captureMapping_throws_errors_only.
  - apply captureMapping_throws_errors_only.
  - done.
Qed.

Lemma run_throws_errors_only rangeForNode body :
  ∀ st, throws_errors_only (run rangeForNode body st).
Proof.
  induction body as [|c rest IH]; intros st; [done|].
  cbn [run]. unfold mbind, M_bind.
  pose proof (perform_throws_errors_only rangeForNode c st) as Hc.
  destruct (perform rangeForNode c st) as [[a|v] st1]; [apply IH | exact Hc].
Qed.

Lemma captureMapping_normal hbsRange source callback st st2 segs maps errs :
  scoped st →
  callback (enter st) = (Normal (), st2) →
  appended (enter st) st2 segs maps errs →
  captureMapping hbsRange source callback st =
    (Normal (),
     if decide (offset st = offset st2) then restack (segmentsStack st) (mappingsStack st) st2
     else restack (push_top segs (segmentsStack st))
            (push_top [MappingNode {| start := Int (offset st); end_ := Int (offset st2) |}
                         hbsRange maps source] (mappingsStack st)) st2).
Proof.
  intros Hsc Hcb [Hss Hms _ _ _]. unfold captureMapping, mbind, M_bind, try_catch, get, modify. cbn.
  unfold enter in Hcb. rewrite Hcb. unfold_statements.
  revert Hsc. intros Hsc. destruct Hsc as [Hs Hm].
  destruct (segmentsStack st) as [|stop srest] eqn:Es; [done|].
  destruct (mappingsStack st) as [|mtop mrest] eqn:Em; [done|].
  unfold enter in Hss, Hms. cbn in Hss, Hms. rewrite Es in Hss. rewrite Em in Hms.
  rewrite Hss, Hms. cbn.
  destruct (decide (offset st = offset st2)) as [Heq|Hne].
  - rewrite decide_False by (intros H; by apply H). reflexivity.
  - rewrite decide_True by done. reflexivity.
Qed.

Section Frame.
Variable rangeForNode : Node → Range.

Lemma captureMapping_appended hbsRange source callback st :
  scoped st →
  throws_errors_only (callback (enter st)) →
  (∀ comp st2, callback (enter st) = (comp, st2) →
     ∃ segs maps errs, appended (enter st) st2 segs maps errs) →
  ∃ st' segs maps errs,
    captureMapping hbsRange source callback st = (Normal (), st') ∧
    appended st st' segs maps errs ∧
    abutting (offset st) maps (offset st').
Proof.
  intros Hsc Herrors Hcb.
  destruct (callback (enter st)) as [[[]|[e| |]] st2] eqn:Ecb; try done.
  - destruct (Hcb _ _ eq_refl) as (segs & maps & errs & Happ).
    erewrite captureMapping_normal by eauto.
    pose proof (nested_le _ _ _ (app_nested _ _ _ _ _ Happ)) as Hle.
    destruct Happ as [Hss Hms Hoff Hnest Herr]. cbn in *.
    destruct (decide (offset st = offset st2)) as [Heq|Hne].
    + eexists _, [], [], errs. split; [reflexivity|]. split; [split; cbn|cbn].
      * by rewrite push_top_nil.
      * by rewrite push_top_nil.
      * unfold len; cbn; lia.
      * constructor. lia.
      * done.
      * done.
    + eexists _, segs, [_], errs. split; [reflexivity|]. split; [split; cbn; try done|cbn].
      * constructor; [lia|lia|done|]. constructor. lia.
      * exists (offset st2). split; [done|]. split; [lia|done].
  - destruct (Hcb _ _ eq_refl) as (segs & maps & errs & Happ).
    erewrite captureMapping_thrown by eauto.
    destruct Happ as [Hss Hms Hoff Hnest Herr]. cbn in *.
    eexists _, [], [], (errs ++ [_]). split; [reflexivity|]. split; [split; cbn|cbn].
    + rewrite Hss. by rewrite push_top_nil.
    + rewrite Hms. by rewrite push_top_nil.
    + unfold len; cbn; lia.
    + constructor. lia.
    + rewrite Herr. by rewrite app_assoc.
    + done.
Qed.

Lemma perform_appended c :
  ∀ st comp st', scoped st → perform rangeForNode c st = (comp, st') →
    ∃ segs maps errs, appended st st' segs maps errs.
Proof.
  induction c as [| | | value | value o l | node callback IH | error]
    using call_ind; intros st comp st' Hsc Hrun.
  - cbn [perform] in Hrun. rewrite (emit_newline_run _ Hsc) in Hrun. inversion Hrun; subst.
    exists [[LF]], [], []. split; cbn; rewrite ?app_nil_r; try done.
    + by rewrite push_top_nil.
    + constructor. lia.
  - cbn [perform] in Hrun. rewrite emit_indent_run in Hrun. inversion Hrun; subst.
    exists [], [], []. apply appended_set_indent.
  - cbn [perform] in Hrun. rewrite emit_dedent_run in Hrun. inversion Hrun; subst.
    exists [], [], []. apply appended_set_indent.
  - cbn [perform] in Hrun. rewrite (emit_text_run _ _ Hsc) in Hrun. inversion Hrun; subst.
    eexists _, [], []. split; cbn; rewrite ?app_nil_r; try done.
    + by rewrite push_top_nil.
    + constructor. pose proof (len_nonneg (join (if needsIndent st then [indent st; value] else [value]))). lia.
  - cbn [perform] in Hrun. unfold emit_identifier in Hrun.
    edestruct (captureMapping_appended) as (st1 & segs & maps & errs & Heq & Happ & _);
      [exact Hsc | apply emit_text_throws_errors_only | |].
    2:{ rewrite Heq in Hrun. inversion Hrun; subst. eauto. }
    intros comp2 st2 Hcb. rewrite (emit_text_run _ _ (enter_scoped st)) in Hcb.
    inversion Hcb; subst.
    eexists _, [], []. split; cbn; rewrite ?app_nil_r; try done.
    constructor. pose proof (len_nonneg (join (if needsIndent st then [indent st; value] else [value]))). lia.
  - rewrite perform_ForNode in Hrun. unfold emit_forNode in Hrun.
    edestruct (captureMapping_appended) as (st1 & segs & maps & errs & Heq & Happ & _);
      [exact Hsc | apply run_throws_errors_only | |].
    2:{ rewrite Heq in Hrun. inversion Hrun; subst. eauto. }
    clear Hrun. generalize (enter_scoped st). generalize (enter st). clear Hsc.
    induction IH as [|c rest Hc _ IHrest]; intros st1 Hsc comp2 st2 Hcb.
    + inversion Hcb; subst. exists [], [], []. apply appended_refl.
    + cbn in Hcb. unfold mbind, M_bind in Hcb.
      destruct (perform rangeForNode c st1) as [[[]|e] st1'] eqn:E1.
      * destruct (Hc _ _ _ Hsc E1) as (s1 & m1 & e1 & H1).
        destruct (IHrest st1' (appended_scoped _ _ _ _ _ Hsc H1) _ _ Hcb) as (s2 & m2 & e2 & H2).
        eexists _, _, _. eapply appended_trans; eassumption.
      * inversion Hcb; subst. eapply Hc; eassumption.
  - inversion Hrun; subst. exists [], [], []. apply appended_refl.
Qed.
End Frame.

Section Scripts.
Variable rangeForNode : Node → Range.

Lemma run_cons c rest st :
  run rangeForNode (c :: rest) st =
    match perform rangeForNode c st with
    | (Normal _, st') => run rangeForNode rest st'
    | (Thrown e, st') => (Thrown e, st')
    end.
Proof. reflexivity. Qed.

Lemma run_app a b st :
  run rangeForNode (a ++ b) st =
    match run rangeForNode a st with
    | (Normal _, st') => run rangeForNode b st'
    | (Thrown e, st') => (Thrown e, st')
    end.
Proof.
  revert st. induction a as [|c a IH]; intros st; [reflexivity|].
  cbn [app]. rewrite !run_cons.
  destruct (perform rangeForNode c st) as [[[]|e] st1]; [apply IH | reflexivity].
Qed.

Lemma run_appended body :
  ∀ st comp st', scoped st → run rangeForNode body st = (comp, st') →
    ∃ segs maps errs, appended st st' segs maps errs.
Proof.
  induction body as [|c rest IH]; intros st comp st' Hsc Hrun.
  - inversion Hrun; subst. exists [], [], []. apply appended_refl.
  - rewrite run_cons in Hrun.
    destruct (perform rangeForNode c st) as [[[]|e] st1] eqn:E1.
    + destruct (perform_appended _ _ _ _ _ Hsc E1) as (s1 & m1 & e1 & H1).
      destruct (IH st1 _ _ (appended_scoped _ _ _ _ _ Hsc H1) Hrun) as (s2 & m2 & e2 & H2).
      eexists _, _, _. eapply appended_trans; eassumption.
    + inversion Hrun; subst. eapply perform_appended; eassumption.
Qed.

(** Whatever a callback that throws [Error] objects only does,
    [captureMapping] completes normally, and the state it leaves is the one it
    found with text, nodes and errors appended. *)
Lemma capture_appended hbsRange source body st :
  scoped st →
  ∃ st' segs maps errs,
    captureMapping hbsRange source (run rangeForNode body) st = (Normal (), st') ∧
    appended st st' segs maps errs ∧
    abutting (offset st) maps (offset st').
Proof.
  intros Hsc. apply captureMapping_appended; [done | apply run_throws_errors_only |].
  intros comp st2 Hcb. eapply run_appended; [apply enter_scoped | eassumption].
Qed.

(** Calls other than [throw] complete normally in a state with an open scope. *)
Lemma perform_normal c st :
  scoped st → (∀ e, c ≠ Throw e) →
  ∃ st', perform rangeForNode c st = (Normal (), st').
Proof.
  intros Hsc Hc. destruct c as [| | | value | value o l | node callback | error].
  - cbn [perform]. rewrite (emit_newline_run _ Hsc). eauto.
  - cbn [perform]. rewrite emit_indent_run. eauto.
  - cbn [perform]. rewrite emit_dedent_run. eauto.
  - cbn [perform]. rewrite (emit_text_run _ _ Hsc). eauto.
  - destruct (perform rangeForNode (IdentifierCall value o l) st) as [comp st'] eqn:E.
    cbn [perform] in E. unfold emit_identifier in E.
    edestruct captureMapping_appended as (st1 & _ & _ & _ & Heq & _);
      [exact Hsc | apply emit_text_throws_errors_only | |].
    2:{ rewrite Heq in E. inversion E; subst. eauto. }
    intros comp2 st2 Hcb. rewrite (emit_text_run _ _ (enter_scoped st)) in Hcb.
    inversion Hcb; subst.
    eexists _, [], []. split; cbn; rewrite ?app_nil_r; try done.
    constructor.
    pose proof (len_nonneg (join (if needsIndent st then [indent st; value] else [value]))).
    lia.
  - rewrite perform_ForNode. unfold emit_forNode.
    destruct (capture_appended (rangeForNode node) (NodeSource node) callback st Hsc)
      as (st' & _ & _ & _ & Heq & _). eauto.
  - by destruct (Hc error).
Qed.
End Scripts.

(** ** Drivers, whatever they throw *)

Lemma appended_depth st st' segs maps errs :
  appended st st' segs maps errs →
  length (segmentsStack st') = length (segmentsStack st) ∧
  length (mappingsStack st') = length (mappingsStack st).
Proof. intros []. rewrite app_segments0, app_mappings0. by rewrite !push_top_length. Qed.

Lemma deepened_scoped st st' : deepened st st' → scoped st'.
Proof. intros [Hs Hm]. split; intros E; rewrite E in *; cbn in *; lia. Qed.

Lemma appended_or_deepened_scoped st st' :
  scoped st → appended_or_deepened st st' → scoped st'.
Proof.
  intros Hsc [(segs & maps & errs & Happ)|Hdeep].
  - eapply appended_scoped; eassumption.
  - by eapply deepened_scoped.
Qed.

Lemma appended_or_deepened_trans st1 st2 st3 :
  appended_or_deepened st1 st2 → appended_or_deepened st2 st3 →
  appended_or_deepened st1 st3.
Proof.
  intros [(s1 & m1 & e1 & H1)|[Hs1 Hm1]] [(s2 & m2 & e2 & H2)|[Hs2 Hm2]].
  - left. eexists _, _, _. eapply appended_trans; eassumption.
  - right. apply appended_depth in H1 as [Hs1 Hm1]. split; lia.
  - right. apply appended_depth in H2 as [Hs2 Hm2]. split; lia.
  - right. split; lia.
Qed.

Section AnyDriver.
Variable rangeForNode : Node → Range.

(** Once the callback has left arrays on the stacks, the one [shift()] of its
    scope does not take the stacks back to where the scope found them. *)
Lemma captureMapping_deepened hbsRange source callback st comp2 st2 :
  callback (enter st) = (comp2, st2) → deepened (enter st) st2 →
  ∀ comp st', captureMapping hbsRange source callback st = (comp, st') → deepened st st'.
Proof.
  intros Hcb [Hs Hm] comp st'. cbn in Hs, Hm.
  unfold captureMapping, mbind, M_bind, try_catch, get, modify. cbn.
  unfold enter in Hcb. rewrite Hcb.
  destruct (segmentsStack st2) as [|s0 [|s1 srest]] eqn:Es; cbn in Hs; try lia.
  destruct (mappingsStack st2) as [|m0 [|m1 mrest]] eqn:Em; cbn in Hm; try lia.
  destruct comp2 as [[]|[e| |]]; unfold_statements.
  - rewrite Es, Em. cbn. destruct (decide _); unfold_statements.
    + intros H; inversion H; subst. split; cbn; lia.
    + intros H; inversion H; subst. split; cbn; lia.
  - rewrite Es, Em. cbn. destruct (decide _); unfold_statements.
    + intros H; inversion H; subst. split; cbn; lia.
    + intros H; inversion H; subst. split; cbn; lia.
  - intros H; inversion H; subst. split; rewrite ?Es, ?Em; cbn; lia.
  - intros H; inversion H; subst. split; rewrite ?Es, ?Em; cbn; lia.
Qed.

Lemma captureMapping_appended_or_deepened hbsRange source callback st :
  scoped st →
  (∀ comp2 st2, callback (enter st) = (comp2, st2) → appended_or_deepened (enter st) st2) →
  ∀ comp st', captureMapping hbsRange source callback st = (comp, st') →
    appended_or_deepened st st'.
Proof.
  intros Hsc Hcb comp st' Hrun.
  destruct (callback (enter st)) as [comp2 st2] eqn:Ecb.
  destruct (Hcb _ _ eq_refl) as [(segs & maps & errs & Happ)|Hdeep].
  2:{ right. eapply captureMapping_deepened; eassumption. }
  destruct comp2 as [[]|[e| |]].
  - edestruct (captureMapping_appended hbsRange source callback st)
      as (st1 & segs1 & maps1 & errs1 & Heq & Happ1 & _);
      [exact Hsc | by rewrite Ecb
      | intros ? ? Hcb2; rewrite Ecb in Hcb2; inversion Hcb2; subst; eauto |].
    rewrite Heq in Hrun. inversion Hrun; subst. left. eauto.
  - edestruct (captureMapping_appended hbsRange source callback st)
      as (st1 & segs1 & maps1 & errs1 & Heq & Happ1 & _);
      [exact Hsc | by rewrite Ecb
      | intros ? ? Hcb2; rewrite Ecb in Hcb2; inversion Hcb2; subst; eauto |].
    rewrite Heq in Hrun. inversion Hrun; subst. left. eauto.
  - rewrite (captureMapping_thrown_null _ _ _ _ _ Ecb) in Hrun. inversion Hrun; subst.
    right. apply appended_depth in Happ as [Hs Hm]. cbn in Hs, Hm. split; lia.
  - rewrite (captureMapping_thrown_undefined _ _ _ _ _ Ecb) in Hrun. inversion Hrun; subst.
    right. apply appended_depth in Happ as [Hs Hm]. cbn in Hs, Hm. split; lia.
Qed.

(** The frame property of every driver: each statement either appends to the
    scope on top and leaves the rest of the stacks alone, or leaves the stacks
    deeper than it found them. *)
Lemma driver_code_appended_or_deepened code :
  driver_code rangeForNode code →
  ∀ st comp st', scoped st → code st = (comp, st') → appended_or_deepened st st'.
Proof.
  induction 1 as [| | | | value | value o l | node callback Hcode IH | thrown
                  | first second H1 IH1 H2 IH2 | body handler Hbody IHbody Hhandler IHhandler];
    intros st comp st' Hsc Hrun.
  - inversion Hrun; subst. left. exists [], [], []. apply appended_refl.
  - left. apply (perform_appended rangeForNode Newline _ _ _ Hsc Hrun).
  - left. apply (perform_appended rangeForNode Indent _ _ _ Hsc Hrun).
  - left. apply (perform_appended rangeForNode Dedent _ _ _ Hsc Hrun).
  - left. apply (perform_appended rangeForNode (Text value) _ _ _ Hsc Hrun).
  - left. apply (perform_appended rangeForNode (IdentifierCall value o l) _ _ _ Hsc Hrun).
  - unfold emit_forNode in Hrun.
    eapply captureMapping_appended_or_deepened; [exact Hsc | | exact Hrun].
    intros comp2 st2 Hcb. eapply IH; [apply enter_scoped | exact Hcb].
  - inversion Hrun; subst. left. exists [], [], []. apply appended_refl.
  - unfold mbind, M_bind in Hrun.
    destruct (first st) as [[[]|v] st1] eqn:E1.
    + pose proof (IH1 _ _ _ Hsc E1) as Hfirst.
      eapply appended_or_deepened_trans; [exact Hfirst|].
      eapply IH2; [|exact Hrun]. eapply appended_or_deepened_scoped; eassumption.
    + inversion Hrun; subst. eapply IH1; eassumption.
  - unfold try_catch in Hrun.
    destruct (body st) as [[[]|v] st1] eqn:E1.
    + inversion Hrun; subst. eapply IHbody; eassumption.
    + pose proof (IHbody _ _ _ Hsc E1) as Hfirst.
      eapply appended_or_deepened_trans; [exact Hfirst|].
      eapply IHhandler; [|exact Hrun]. eapply appended_or_deepened_scoped; eassumption.
Qed.

(** No statement of a driver leaves either stack shallower than it found
    it. *)
Lemma depth_never_decreases code st comp st' :
  driver_code rangeForNode code → scoped st → code st = (comp, st') →
  (length (segmentsStack st) ≤ length (segmentsStack st'))%nat ∧
  (length (mappingsStack st) ≤ length (mappingsStack st'))%nat.
Proof.
  intros Hcode Hsc Hrun.
  destruct (driver_code_appended_or_deepened code Hcode _ _ _ Hsc Hrun)
    as [(segs & maps & errs & Happ)|[Hs Hm]].
  - apply appended_depth in Happ as [Hs Hm]. lia.
  - lia.
Qed.

(** Arrays left on the stacks stay there, whatever the driver does next. *)
Lemma deepened_for_good code st st1 comp st2 :
  driver_code rangeForNode code → deepened st st1 → code st1 = (comp, st2) →
  deepened st st2.
Proof.
  intros Hcode Hdeep Hrun.
  pose proof (driver_code_appended_or_deepened code Hcode _ _ _ (deepened_scoped _ _ Hdeep) Hrun)
    as Hnext.
  destruct (appended_or_deepened_trans st st1 st2 (or_intror Hdeep) Hnext)
    as [(segs & maps & errs & Happ)|Hdone]; [|exact Hdone].
  apply appended_depth in Happ as [Hs Hm].
  destruct Hdeep as [Hs1 Hm1].
  destruct Hnext as [(segs' & maps' & errs' & Happ')|[Hs2 Hm2]].
  - apply appended_depth in Happ' as [Hs2 Hm2]. split; lia.
  - split; lia.
Qed.

(** The calls of a driver that throws [Error] objects only are driver
    statements. *)
Lemma perform_driver_code c : driver_code rangeForNode (perform rangeForNode c).
Proof.
  induction c as [| | | value | value o l | node callback IH | error] using call_ind.
  - apply code_newline.
  - apply code_indent.
  - apply code_dedent.
  - apply code_text.
  - apply code_identifier.
  - change (driver_code rangeForNode
              (emit_forNode rangeForNode node (run rangeForNode callback))).
    apply code_forNode.
    induction IH as [|c rest Hc _ IHrest]; [apply code_skip|].
    cbn [run]. by apply code_seq.
  - apply code_throw.
Qed.

Lemma run_driver_code body : driver_code rangeForNode (run rangeForNode body).
Proof.
  induction body as [|c rest IH]; [apply code_skip|].
  cbn [run]. apply code_seq; [apply perform_driver_code | exact IH].
Qed.
End AnyDriver.

(** ** Calls that do not throw *)

Section Quiet.
Variable rangeForNode : Node → Range.

Lemma throw_free_quiet c :
  ∀ st comp st', scoped st → throw_free c = true →
    perform rangeForNode c st = (comp, st') →
    comp = Normal () ∧ collected st' = collected st.
Proof.
  induction c as [| | | value | value o l | node callback IH | error]
    using call_ind; intros st comp st' Hsc Hfree Hrun.
  - cbn [perform] in Hrun. rewrite (emit_newline_run _ Hsc) in Hrun. by inversion Hrun.
  - cbn [perform] in Hrun. rewrite emit_indent_run in Hrun. by inversion Hrun.
  - cbn [perform] in Hrun. rewrite emit_dedent_run in Hrun. by inversion Hrun.
  - cbn [perform] in Hrun. rewrite (emit_text_run _ _ Hsc) in Hrun. by inversion Hrun.
  - cbn [perform] in Hrun. unfold emit_identifier in Hrun.
    pose proof (emit_text_run value _ (enter_scoped st)) as Htext.
    erewrite captureMapping_normal in Hrun; [| exact Hsc | exact Htext |].
    + inversion Hrun; subst. split; [done|]. by destruct (decide _).
    + instantiate (1 := []). instantiate (1 := []).
      instantiate (1 := if needsIndent st then [indent st; value] else [value]).
      split; cbn; rewrite ?app_nil_r; try done.
      constructor.
      pose proof (len_nonneg (join (if needsIndent st then [indent st; value] else [value]))).
      unfold join in *. lia.
  - rewrite perform_ForNode in Hrun. unfold emit_forNode in Hrun.
    assert (Hbody : ∀ st1, scoped st1 →
              ∃ st2, run rangeForNode callback st1 = (Normal (), st2)
                     ∧ collected st2 = collected st1).
    { cbn [throw_free] in Hfree. clear Hrun Hsc.
      induction IH as [|c rest Hc _ IHrest]; intros st1 Hsc1; [by eexists|].
      cbn [forallb] in Hfree. apply andb_prop in Hfree as [Hfc Hfrest].
      rewrite run_cons.
      destruct (perform rangeForNode c st1) as [comp1 st1'] eqn:E1.
      destruct (Hc _ _ _ Hsc1 Hfc E1) as [-> Hcol].
      destruct (perform_appended _ _ _ _ _ Hsc1 E1) as (s1 & m1 & e1 & H1).
      destruct (IHrest Hfrest st1' (appended_scoped _ _ _ _ _ Hsc1 H1)) as (st2 & Hr & Hc2).
      exists st2. split; [done | congruence]. }
    destruct (Hbody _ (enter_scoped st)) as (st2 & Hr & Hcol).
    destruct (run_appended _ _ _ _ _ (enter_scoped st) Hr) as (segs & maps & errs & Happ).
    erewrite captureMapping_normal in Hrun by eauto.
    inversion Hrun; subst. split; [done|]. by destruct (decide _).
  - done.
Qed.

Lemma throw_free_run_quiet body :
  ∀ st, scoped st → forallb throw_free body = true →
    ∃ st', run rangeForNode body st = (Normal (), st') ∧ collected st' = collected st.
Proof.
  induction body as [|c rest IH]; intros st Hsc Hfree; [by eexists|].
  cbn [forallb] in Hfree. apply andb_prop in Hfree as [Hfc Hfrest].
  rewrite run_cons.
  destruct (perform rangeForNode c st) as [comp1 st1] eqn:E1.
  destruct (throw_free_quiet _ _ _ _ Hsc Hfc E1) as [-> Hcol].
  destruct (perform_appended _ _ _ _ _ Hsc E1) as (s1 & m1 & e1 & H1).
  destruct (IH st1 (appended_scoped _ _ _ _ _ Hsc H1) Hfrest) as (st2 & Hr & Hc2).
  exists st2. split; [done | congruence].
Qed.

(** Outside every scope, a driver's run ends with its first [throw]. *)
Lemma run_first_throw body :
  ∀ st, scoped st →
    match first_throw body with
    | Some e => ∃ st', run rangeForNode body st = (Thrown e, st')
    | None => ∃ st', run rangeForNode body st = (Normal (), st')
    end.
Proof.
  induction body as [|c rest IH]; intros st Hsc; [by eexists|].
  assert (Hcases : (∃ e, c = Throw e) ∨ (∀ e, c ≠ Throw e)).
  { destruct c; try (right; intros e' ?; discriminate). left. by eexists. }
  destruct Hcases as [[e ->]|Hc].
  - cbn. by eexists.
  - destruct (perform_normal rangeForNode c st Hsc Hc) as (st1 & E1).
    destruct (perform_appended _ _ _ _ _ Hsc E1) as (s1 & m1 & e1 & H1).
    specialize (IH st1 (appended_scoped _ _ _ _ _ Hsc H1)).
    rewrite run_cons, E1.
    destruct c; try done; by destruct (Hc error).
Qed.
End Quiet.

(** ** Failed scopes *)

(** The errors list after a failed scope: what the parent had, what the
    callback's own failed scopes recorded, and one entry for the call. *)
Lemma failed_scope_rollback_errors rangeForNode hbsRange source callback st
    (e : JsError) st2 :
  scoped st →
  run rangeForNode callback (enter st) = (Thrown e, st2) →
  ∃ st' inner,
    captureMapping hbsRange source (run rangeForNode callback) st = (Normal (), st') ∧
    collected st' =
      collected st ++ inner ++ [{| message := error_message e; location := hbsRange |}].
Proof.
  intros Hsc Hrun.
  destruct (run_appended _ _ _ _ _ (enter_scoped st) Hrun) as (segs & maps & errs & Happ).
  destruct Happ as [_ _ _ _ Herr].
  eexists _, errs. split; [by apply captureMapping_thrown|].
  cbn. rewrite Herr. cbn. by rewrite app_assoc.
Qed.

(** C1, as the code has it, for a callback in which only [Error] objects are
    thrown. When the callback of a [forNode] or [identifier] call throws, the
    call itself completes normally; the output offset is what it was before
    the call; the segment lists and child lists of the parent and of every
    scope below it are what they were; and one entry, with the thrown message
    and the call's source range, is put at the end of the errors list as the
    callback left it. Entries that failed scopes inside the callback recorded
    stay and come before it; when the calls before the [throw] throw nowhere
    themselves, the one entry is all the call adds. *)
Theorem failed_scope_rolled_back rangeForNode hbsRange source callback st
    (e : JsError) st2 :
  scoped st →
  run rangeForNode callback (enter st) = (Thrown e, st2) →
  ∃ st',
    captureMapping hbsRange source (run rangeForNode callback) st = (Normal (), st') ∧
    offset st' = offset st ∧
    segmentsStack st' = segmentsStack st ∧
    mappingsStack st' = mappingsStack st ∧
    collected st' =
      collected st2 ++ [{| message := error_message e; location := hbsRange |}] ∧
    (∃ inner, collected st2 = collected st ++ inner) ∧
    (∀ pre post, callback = pre ++ Throw e :: post → forallb throw_free pre = true →
       collected st' =
         collected st ++ [{| message := error_message e; location := hbsRange |}]).
Proof.
  intros Hsc Hrun.
  destruct (run_appended _ _ _ _ _ (enter_scoped st) Hrun) as (segs & maps & errs & Happ).
  destruct Happ as [Hss Hms _ _ Herr].
  eexists. split; [by apply captureMapping_thrown|].
  cbn. rewrite Hss, Hms. cbn. repeat split.
  - by exists errs.
  - intros pre post -> Hfree. f_equal.
    destruct (throw_free_run_quiet rangeForNode pre _ (enter_scoped st) Hfree)
      as (st1 & Hpre & Hcol).
    rewrite run_app, Hpre in Hrun. cbn in Hrun. inversion Hrun; subst. exact Hcol.
Qed.

Lemma failed_scope_rolled_back_witness :
  ∃ st',
    perform sample_rangeForNode
      (ForNode sample_node [Text (lit "a"); Throw boom]) initial = (Normal (), st') ∧
    offset st' = 0 ∧ segmentsStack st' = [[]] ∧ mappingsStack st' = [[]] ∧
    collected st' =
      [{| message := lit "boom"; location := {| start := Int 1; end_ := Int 2 |} |}].
Proof.
  destruct (failed_scope_rolled_back sample_rangeForNode
              (sample_rangeForNode sample_node) (NodeSource sample_node)
              [Text (lit "a"); Throw boom] initial boom
              (run sample_rangeForNode [Text (lit "a"); Throw boom] (enter initial)).2)
    as (st' & Hrun & Hoff & Hss & Hms & _ & _ & Hone).
  - split; discriminate.
  - reflexivity.
  - exists st'. repeat split; try assumption.
    apply (Hone [Text (lit "a")] []); reflexivity.
Defined.

(** C1 as the claim words it fails: a callback that emits a character, runs a
    scope that fails, and then throws makes one call append two entries, both
    with the node's source range. *)
Lemma nested_failure_appends_two_entries :
  collected initial = [] ∧
  collected
    (perform sample_rangeForNode
       (ForNode sample_node
          [Text (lit "a"); ForNode sample_node [Throw inner_boom]; Throw boom])
       initial).2 =
    [{| message := lit "inner"; location := sample_rangeForNode sample_node |};
     {| message := lit "boom"; location := sample_rangeForNode sample_node |}].
Proof. split; reflexivity. Qed.

(** ** Empty scopes *)

(** C6. A [forNode] or [identifier] call whose callback returns with the output
    offset where it was leaves both stacks exactly as they were: no node is
    added to the parent's child list or to any other, and no segment to any
    segment list. *)
Theorem empty_scope_leaves_nothing rangeForNode hbsRange source callback st st2 :
  scoped st →
  run rangeForNode callback (enter st) = (Normal (), st2) →
  offset st2 = offset st →
  ∃ st',
    captureMapping hbsRange source (run rangeForNode callback) st = (Normal (), st') ∧
    mappingsStack st' = mappingsStack st ∧
    segmentsStack st' = segmentsStack st ∧
    offset st' = offset st.
Proof.
  intros Hsc Hrun Hoff.
  destruct (run_appended _ _ _ _ _ (enter_scoped st) Hrun) as (segs & maps & errs & Happ).
  erewrite captureMapping_normal by eauto.
  rewrite decide_True by done. eexists. split; [reflexivity|]. by cbn.
Qed.

Lemma empty_scope_leaves_nothing_witness :
  ∃ st',
    perform sample_rangeForNode
      (ForNode sample_node [Text []; ForNode sample_ast []; Indent]) initial
      = (Normal (), st') ∧
    mappingsStack st' = [[]] ∧ segmentsStack st' = [[]] ∧ offset st' = 0.
Proof.
  apply (empty_scope_leaves_nothing sample_rangeForNode
           (sample_rangeForNode sample_node) (NodeSource sample_node)
           [Text []; ForNode sample_ast []; Indent] initial
           (run sample_rangeForNode [Text []; ForNode sample_ast []; Indent]
              (enter initial)).2).
  - split; discriminate.
  - reflexivity.
  - reflexivity.
Defined.

(** ** The scope stacks *)

(** With a driver that throws [Error] objects only, [captureMapping] takes off
    both stacks what it put on them, whether its callback returns or throws;
    both stacks hold exactly the root scope when such a driver is done, whether
    it returns or throws, and the [assert] after the driver call does not
    fail. *)
Lemma error_throwing_driver_unwinds :
  (∀ rangeForNode hbsRange source callback st,
     scoped st →
     ∃ st', captureMapping hbsRange source (run rangeForNode callback) st = (Normal (), st') ∧
       length (segmentsStack st') = length (segmentsStack st) ∧
       length (mappingsStack st') = length (mappingsStack st)) ∧
  (∀ rangeForNode body,
     length (segmentsStack (run rangeForNode body initial).2) = 1%nat ∧
     length (mappingsStack (run rangeForNode body initial).2) = 1%nat) ∧
  (∀ preprocess template callback,
     mapTemplateContents preprocess template callback ≠ AssertionFailed).
Proof.
  assert (Hinit : scoped initial) by (split; discriminate).
  assert (Hrun : ∀ rangeForNode body,
     length (segmentsStack (run rangeForNode body initial).2) = 1%nat ∧
     length (mappingsStack (run rangeForNode body initial).2) = 1%nat).
  { intros rangeForNode body.
    destruct (run rangeForNode body initial) as [comp st] eqn:E.
    destruct (run_appended _ _ _ _ _ Hinit E) as (segs & maps & errs & Happ).
    apply appended_depth in Happ. exact Happ. }
  split; [|split].
  - intros rangeForNode hbsRange source callback st Hsc.
    destruct (capture_appended rangeForNode hbsRange source callback st Hsc)
      as (st' & segs & maps & errs & Heq & Happ & _).
    exists st'. split; [done|]. by eapply appended_depth.
  - exact Hrun.
  - intros preprocess template callback. unfold mapTemplateContents, mapTemplateContents_with.
    destruct (preprocess template) as [ast|error]; [|discriminate].
    cbn zeta.
    pose proof (Hrun (calculateLineOffsets template)
                  (callback ast (calculateLineOffsets template))) as [Hs _].
    destruct (run _ _ initial) as [[[]|e] st]; [|discriminate].
    cbn in Hs. by rewrite decide_True.
Qed.

(** A driver that leaves the stacks deeper than the root scope gets no result:
    the call ends with the driver's exception or with the failed [assert]. *)
Lemma deepened_never_returns preprocess template callback ast comp st :
  preprocess template = Parsed ast →
  callback ast (calculateLineOffsets template) initial = (comp, st) →
  deepened initial st →
  ∀ r, mapTemplateContents_with preprocess template callback ≠ Returns r.
Proof.
  intros Hparse Hrun [Hs _] r. unfold mapTemplateContents_with.
  rewrite Hparse. cbn zeta. rewrite Hrun. cbn in Hs.
  destruct comp as [[]|v]; [|discriminate].
  rewrite decide_False by lia. discriminate.
Qed.

(** A [null] thrown one scope deep: the scope's handler fails on
    [error.message], and its [TypeError] leaves [mapTemplateContents]. *)
Example null_thrown_in_scope_escapes :
  mapTemplateContents_with sample_parser sample_template null_driver
    = Throws null_type_error.
Proof. reflexivity. Qed.

(** C9 fails on the code. The driver
    [(ast, { emit }) => emit.forNode(ast, () => emit.forNode(ast, () => { throw null }))]
    is made of calls of [emit] and a [throw] only. The catch handler of the
    inner [forNode] call throws on [error.message]: the call ends with that
    [TypeError], has recorded nothing, and has left its two arrays on the
    stacks. The outer call catches the [TypeError], records it and takes one
    array off each stack, the inner call's: the driver returns normally with
    both stacks two deep, and the [assert] after the driver call fails. *)
Theorem nested_null_throw_fails_assert :
  let rangeForNode := calculateLineOffsets sample_template in
  let inner := emit_forNode rangeForNode sample_ast (throw ThrownNull) in
  driver_code rangeForNode (nested_null_driver sample_ast rangeForNode) ∧
  inner (enter initial) = (Thrown null_type_error, enter (enter initial)) ∧
  (∃ st', nested_null_driver sample_ast rangeForNode initial = (Normal (), st') ∧
     segmentsStack st' = [[]; []] ∧ mappingsStack st' = [[]; []] ∧
     collected st' =
       [{| message := error_message null_type_error;
           location := {| start := Int 0; end_ := Int 3 |} |}]) ∧
  mapTemplateContents_with sample_parser sample_template nested_null_driver
    = AssertionFailed.
Proof.
  cbn zeta. split; [|split; [|split]].
  - unfold nested_null_driver. do 2 apply code_forNode. apply code_throw.
  - reflexivity.
  - eexists. split; [vm_compute; reflexivity|]. by repeat split.
  - reflexivity.
Qed.

(** ** Indentation across a rollback *)

(** C10. The rollback of a failed scope sets the offset back and nothing else:
    when the callback's last call before its [throw] is [newline()], the
    indentation is still pending after the call, and the next [text(value)] in
    the parent scope puts the indentation prefix and then [value] on the
    parent's segment list, right after the text the parent had before the
    failed scope, from which the line break is gone. *)
Theorem rollback_keeps_pending_indent rangeForNode hbsRange source pre e st st1 value :
  scoped st →
  run rangeForNode pre (enter st) = (Normal (), st1) →
  ∃ st' st'',
    captureMapping hbsRange source (run rangeForNode (pre ++ [Newline; Throw e])) st
      = (Normal (), st') ∧
    needsIndent st' = true ∧
    indent st' = indent st1 ∧
    offset st' = offset st ∧
    segmentsStack st' = segmentsStack st ∧
    emit_text value st' = (Normal (), st'') ∧
    segmentsStack st'' = push_top [indent st1; value] (segmentsStack st) ∧
    offset st'' = offset st + len (indent st1) + len value.
Proof.
  intros Hsc Hpre.
  destruct (run_appended _ _ _ _ _ (enter_scoped st) Hpre) as (segs & maps & errs & Happ).
  pose proof (appended_scoped _ _ _ _ _ (enter_scoped st) Happ) as Hsc1.
  assert (Hrun : run rangeForNode (pre ++ [Newline; Throw e]) (enter st) =
    (Thrown e, set_needsIndent true
       (set_segmentsStack (push_top [[LF]] (segmentsStack st1)) (set_offset (offset st1 + 1) st1)))).
  { rewrite run_app, Hpre, run_cons. cbn [perform]. by rewrite (emit_newline_run _ Hsc1). }
  rewrite (captureMapping_thrown _ _ _ _ _ _ Hsc Hrun).
  destruct Happ as [Hss Hms _ _ _].
  eexists _, _. split; [reflexivity|].
  split; [reflexivity|]. split; [reflexivity|]. split; [reflexivity|].
  split; [cbn; rewrite Hss; reflexivity|].
  split.
  - apply emit_text_run. destruct Hsc as [Hs Hm]. split; cbn.
    + by rewrite Hss.
    + by rewrite Hms.
  - cbn. rewrite Hss. cbn. split; [reflexivity|].
    unfold join. cbn. rewrite app_nil_r, len_app. lia.
Qed.

Lemma rollback_keeps_pending_indent_witness :
  ∃ st' st'',
    perform sample_rangeForNode (ForNode sample_node [Newline; Throw boom])
      (set_indent (lit "  ") initial) = (Normal (), st') ∧
    needsIndent st' = true ∧
    emit_text (lit "x") st' = (Normal (), st'') ∧
    segmentsStack st'' = [[lit "  "; lit "x"]] ∧
    offset st'' = 3.
Proof.
  destruct (rollback_keeps_pending_indent sample_rangeForNode
              (sample_rangeForNode sample_node) (NodeSource sample_node)
              [] boom (set_indent (lit "  ") initial)
              (enter (set_indent (lit "  ") initial)) (lit "x"))
    as (st' & st'' & Hrun & Hflag & _ & _ & _ & Htext & Hsegs & Hoff).
  - split; discriminate.
  - reflexivity.
  - exists st', st''. repeat split; assumption.
Defined.

(** The resulting output: an indentation prefix and no line break before it. *)
Example indentation_without_its_newline :
  mapTemplateContents sample_parser sample_template
    (λ ast _, [Indent; ForNode ast [Newline; Throw boom]; Text (lit "x")])
  = Returns {| errors := [{| message := lit "boom";
                             location := {| start := Int 0; end_ := Int 3 |} |}];
               result := Some {| code := lit "  x";
                                 mapping := MappingNode {| start := Int 0; end_ := Int 3 |}
                                              {| start := Int 0; end_ := Int 3 |} []
                                              (NodeSource sample_ast) |} |}.
Proof. reflexivity. Qed.

(** ** Which failures are caught *)

Lemma mapTemplateContents_first_throw preprocess template callback ast :
  preprocess template = Parsed ast →
  match first_throw (callback ast (calculateLineOffsets template)) with
  | Some e => mapTemplateContents preprocess template callback = Throws e
  | None => ∃ r rw, mapTemplateContents preprocess template callback = Returns r
                    ∧ result r = Some rw
  end.
Proof.
  intros Hparse. unfold mapTemplateContents, mapTemplateContents_with. rewrite Hparse. cbn zeta.
  assert (Hinit : scoped initial) by (split; discriminate).
  pose proof (run_first_throw (calculateLineOffsets template)
                (callback ast (calculateLineOffsets template)) initial Hinit) as Hrun.
  destruct (first_throw _) as [e|].
  - destruct Hrun as [st' ->]. reflexivity.
  - destruct Hrun as [st' Hrun].
    destruct (run_appended _ _ _ _ _ Hinit Hrun) as (segs & maps & errs & Happ).
    apply appended_depth in Happ as [Hs _]. rewrite Hrun.
    rewrite decide_True by exact Hs. eexists _, _. split; reflexivity.
Qed.

(** C3, as the code has it. An [Error] object thrown by the callback of a
    [forNode] call, whatever else the callback did, is caught by that call: the
    call completes normally, and the failure is the last entry of the errors
    list, with the node's source range. With a driver that throws [Error]
    objects only, every [forNode] call completes normally, whatever its
    callback does, and adds entries to the errors list only at its end. A
    failure such a driver throws outside every [forNode] scope is not caught:
    [mapTemplateContents] ends with that exception and returns nothing. It
    returns a result exactly when the driver throws nothing outside a
    scope. *)
Theorem failures_caught_in_scopes_only preprocess template callback ast :
  preprocess template = Parsed ast →
  let rangeForNode := calculateLineOffsets template in
  (∀ node (code : M unit) st (e : JsError) st2,
     code (enter st) = (Thrown e, st2) →
     ∃ st', emit_forNode rangeForNode node code st = (Normal (), st') ∧
       collected st' =
         collected st2 ++ [{| message := error_message e; location := rangeForNode node |}]) ∧
  (∀ node body st, scoped st →
     ∃ st' added,
       perform rangeForNode (ForNode node body) st = (Normal (), st') ∧
       collected st' = collected st ++ added ∧
       ∀ (e : JsError) st2, run rangeForNode body (enter st) = (Thrown e, st2) →
         last added = Some {| message := error_message e; location := rangeForNode node |}) ∧
  match first_throw (callback ast rangeForNode) with
  | Some e => mapTemplateContents preprocess template callback = Throws e
  | None => ∃ r rw, mapTemplateContents preprocess template callback = Returns r
                    ∧ result r = Some rw
  end.
Proof.
  intros Hparse rangeForNode.
  split; [|split; [|by apply mapTemplateContents_first_throw]].
  { intros node code st e st2 Hthrown. unfold emit_forNode.
    unfold captureMapping, mbind, M_bind, try_catch, get, modify. cbn.
    unfold enter in Hthrown. rewrite Hthrown. unfold_statements.
    rewrite decide_False by (intros H; by apply H). eexists. split; reflexivity. }
  intros node body st Hsc. rewrite perform_ForNode. unfold emit_forNode.
  destruct (capture_appended rangeForNode (rangeForNode node) (NodeSource node) body st Hsc)
    as (st' & segs & maps & errs & Heq & Happ & _).
  exists st', errs. split; [done|]. split; [by destruct Happ|].
  intros e st2 Hthrown.
  destruct (failed_scope_rollback_errors rangeForNode (rangeForNode node) (NodeSource node)
              body st e st2 Hsc Hthrown) as (st3 & inner & Heq3 & Hcol).
  rewrite Heq in Heq3. inversion Heq3; subst st3.
  destruct Happ as [_ _ _ _ Herr]. rewrite Herr in Hcol.
  apply app_inv_head in Hcol. subst errs.
  by rewrite last_snoc.
Qed.

Lemma failures_caught_in_scopes_only_witness :
  (∃ st', emit_forNode sample_rangeForNode sample_node
            (try_catch (emit_forNode sample_rangeForNode sample_node (throw ThrownNull))
               (λ _, mret ());; throw boom)
            initial = (Normal (), st') ∧
     collected st' = [{| message := lit "boom"; location := sample_rangeForNode sample_node |}]) ∧
  (∃ st' added,
     perform sample_rangeForNode (ForNode sample_node [Text (lit "a"); Throw boom]) initial
       = (Normal (), st') ∧
     collected st' = collected initial ++ added ∧
     last added = Some {| message := lit "boom"; location := sample_rangeForNode sample_node |}) ∧
  ∃ r rw, mapTemplateContents sample_parser sample_template
            (λ ast _, [ForNode ast [Text (lit "a"); Throw boom]]) = Returns r
          ∧ result r = Some rw.
Proof.
  destruct (failures_caught_in_scopes_only sample_parser sample_template
              (λ ast _, [ForNode ast [Text (lit "a"); Throw boom]]) sample_ast eq_refl)
    as (Hcaught & Hscope & Hdriver).
  split; [|split; [|exact Hdriver]].
  - apply (Hcaught sample_node
             (try_catch (emit_forNode sample_rangeForNode sample_node (throw ThrownNull))
                (λ _, mret ());; throw boom)
             initial boom (enter (enter initial))).
    reflexivity.
  - destruct (Hscope sample_node [Text (lit "a"); Throw boom] initial)
      as (st' & added & Hrun & Hcol & Hlast); [split; discriminate|].
    exists st', added. split; [exact Hrun|]. split; [exact Hcol|].
    by apply (Hlast boom (run sample_rangeForNode [Text (lit "a"); Throw boom] (enter initial)).2).
Defined.

(** C3 as the claim words it fails: a throw of the driver outside every
    [forNode] scope leaves [mapTemplateContents] as an exception; no errors
    list is returned for it to be an entry of. *)
Lemma top_level_throw_escapes :
  mapTemplateContents sample_parser sample_template
    (λ ast _, [ForNode ast [Text (lit "x")]; Throw boom]) = Throws boom.
Proof. reflexivity. Qed.

(** ** Parse failures *)

(** C4, as the code has it. When the parser throws, [mapTemplateContents]
    returns exactly one error, with the parser's message and the range of the
    whole input, and no result. Whenever it returns, the result is absent if
    and only if the parser threw. Both hold whatever the driver does or throws.
    When the parser succeeds and the driver throws [Error] objects only, the
    call returns, with a result, if the driver throws nothing outside a
    [forNode] scope; otherwise it does not return, and ends with the exception
    of the driver's first [throw] outside a scope. *)
Theorem result_absent_iff_parse_failure preprocess template :
  (∀ code error, preprocess template = SyntaxError error →
     mapTemplateContents_with preprocess template code =
       Returns {| errors := [{| message := error_message error;
                                location := {| start := Int 0; end_ := Int (len template) |} |}];
                  result := None |}) ∧
  (∀ code r, mapTemplateContents_with preprocess template code = Returns r →
     (result r = None ↔ ∃ error, preprocess template = SyntaxError error)) ∧
  (∀ callback ast, preprocess template = Parsed ast →
     match first_throw (callback ast (calculateLineOffsets template)) with
     | None => ∃ r rw, mapTemplateContents preprocess template callback = Returns r
                       ∧ result r = Some rw
     | Some e => mapTemplateContents preprocess template callback = Throws e
                 ∧ ∀ r, mapTemplateContents preprocess template callback ≠ Returns r
     end).
Proof.
  split; [|split].
  - intros code error Hparse. unfold mapTemplateContents_with. by rewrite Hparse.
  - intros code r. unfold mapTemplateContents_with.
    destruct (preprocess template) as [ast|error] eqn:Hparse.
    + cbn zeta. destruct (code ast _ initial) as [[[]|v] st]; [|discriminate].
      destruct (decide _); [|discriminate].
      intros Hret. inversion Hret; subst r. cbn.
      split; [discriminate|]. intros [error ?]. discriminate.
    + intros Hret. inversion Hret; subst r. cbn. split; eauto.
  - intros callback ast Hparse.
    pose proof (mapTemplateContents_first_throw preprocess template callback ast Hparse) as H.
    destruct (first_throw _) as [e|]; [|exact H].
    split; [exact H|]. intros r. rewrite H. discriminate.
Qed.

Lemma result_absent_iff_parse_failure_witness :
  mapTemplateContents_with failing_parser (lit "{{#if}}") nested_null_driver =
    Returns {| errors := [{| message := lit "unclosed block";
                             location := {| start := Int 0; end_ := Int 7 |} |}];
               result := None |} ∧
  (∃ r rw, mapTemplateContents sample_parser sample_template
             (λ ast _, [ForNode ast [Text (lit "x"); Throw boom]]) = Returns r
           ∧ result r = Some rw) ∧
  mapTemplateContents sample_parser sample_template
    (λ ast _, [ForNode ast [Text (lit "x")]; Throw boom]) = Throws boom.
Proof.
  split; [|split].
  - destruct (result_absent_iff_parse_failure failing_parser (lit "{{#if}}"))
      as (Hfail & _ & _).
    apply (Hfail nested_null_driver {| error_message := lit "unclosed block" |}).
    reflexivity.
  - destruct (result_absent_iff_parse_failure sample_parser sample_template)
      as (_ & _ & Hok).
    apply (Hok (λ ast _, [ForNode ast [Text (lit "x"); Throw boom]]) sample_ast).
    reflexivity.
  - destruct (result_absent_iff_parse_failure sample_parser sample_template)
      as (_ & _ & Hthrows).
    apply (Hthrows (λ ast _, [ForNode ast [Text (lit "x")]; Throw boom]) sample_ast).
    reflexivity.
Defined.

(** C4 as the claim words it fails: here the parser succeeds and yet no result
    is present, because the call does not return. *)
Lemma parsed_input_without_result :
  sample_parser sample_template = Parsed sample_ast ∧
  mapTemplateContents sample_parser sample_template (λ _ _, [Throw boom]) = Throws boom ∧
  ∀ r, mapTemplateContents sample_parser sample_template (λ _ _, [Throw boom]) ≠ Returns r.
Proof. repeat split. intros r. discriminate. Qed.

(** ** The containment invariant *)

Lemma nested_checked lo maps hi :
  nested lo maps hi →
  Forall (λ m, output_containment m = true ∧
               ∃ s e, outputRange m = {| start := Int s; end_ := Int e |} ∧ lo ≤ s ∧ s < e ∧ e ≤ hi)
         maps ∧
  siblings_apart (map outputRange maps) = true.
Proof.
  induction 1 as [lo hi Hle | lo s e hi src cs o rest Hlo Hse Hcs [IHcs IHsib] Hrest [IHrest IHrsib]].
  - split; [constructor | reflexivity].
  - pose proof (nested_le _ _ _ Hrest) as Hehi. split.
    + constructor.
      * split.
        -- cbn. apply andb_true_intro. split; [|exact IHsib].
           apply forallb_forall. intros c Hc. apply list_elem_of_In in Hc.
           rewrite Forall_forall in IHcs. destruct (IHcs c Hc) as (Hok & s' & e' & Hr & ? & ? & ?).
           rewrite Hok, Hr. unfold range_within. cbn.
           apply andb_true_intro. split; [|reflexivity].
           apply andb_true_intro. split; apply Z.leb_le; lia.
        -- exists s, e. repeat split; try done; lia.
      * eapply Forall_impl; [exact IHrest|].
        intros m (Hok & s' & e' & Hr & ? & ? & ?). split; [done|].
        exists s', e'. repeat split; try done; lia.
    + cbn. apply andb_true_intro. split; [|exact IHrsib].
      apply forallb_forall. intros r Hr. apply list_elem_of_In in Hr.
      apply list_elem_of_fmap in Hr as (m & -> & Hm).
      rewrite Forall_forall in IHrest. destruct (IHrest m Hm) as (_ & s' & e' & Hr & ? & ? & ?).
      rewrite Hr. cbn. apply andb_true_intro. split; apply Z.leb_le; lia.
Qed.

(** What a run of the driver that returns leaves for the result. *)
Lemma mapTemplateContents_returns preprocess template callback r rw :
  mapTemplateContents preprocess template callback = Returns r →
  result r = Some rw →
  ∃ ast st segs maps errs,
    preprocess template = Parsed ast ∧
    run (calculateLineOffsets template) (callback ast (calculateLineOffsets template)) initial
      = (Normal (), st) ∧
    appended initial st segs maps errs ∧
    code rw = join segs ∧
    mapping rw = MappingNode {| start := Int 0; end_ := Int (len (join segs)) |}
                   (calculateLineOffsets template ast) maps (NodeSource ast) ∧
    errors r = errs.
Proof.
  unfold mapTemplateContents, mapTemplateContents_with. intros Hret Hres.
  destruct (preprocess template) as [ast|error]; [|inversion Hret; subst; discriminate].
  cbn zeta in Hret.
  destruct (run _ _ initial) as [[[]|e] st] eqn:Hrun; [|discriminate].
  assert (Hinit : scoped initial) by (split; discriminate).
  destruct (run_appended _ _ _ _ _ Hinit Hrun) as (segs & maps & errs & Happ).
  destruct (decide _); [|discriminate].
  inversion Hret; subst r. cbn in Hres. inversion Hres; subst rw. clear Hret Hres.
  exists ast, st, segs, maps, errs.
  pose proof Happ as [Hss Hms _ _ Herr]. cbn in Hss, Hms, Herr.
  rewrite Hss, Hms. cbn.
  split; [done|]. split; [done|]. split; [exact Happ|]. by repeat split.
Qed.

(** C2, as the code has it. In every mapping tree [mapTemplateContents]
    returns, at every node each child's output range lies within the node's
    output range, and the children's output ranges are in order of their starts
    and do not overlap. Nothing relates a child's source range to its parent's:
    source ranges are whatever the driver passes. *)
Theorem output_ranges_contained preprocess template callback r rw :
  mapTemplateContents preprocess template callback = Returns r →
  result r = Some rw →
  output_containment (mapping rw) = true.
Proof.
  intros Hret Hres.
  destruct (mapTemplateContents_returns _ _ _ _ _ Hret Hres)
    as (ast & st & segs & maps & errs & _ & _ & Happ & _ & -> & _).
  destruct Happ as [_ _ Hoff Hnest _]. cbn in Hoff, Hnest. rewrite Hoff in Hnest.
  destruct (nested_checked _ _ _ Hnest) as [Hall Hsib].
  cbn. apply andb_true_intro. split; [|exact Hsib].
  apply forallb_forall. intros c Hc. apply list_elem_of_In in Hc.
  rewrite Forall_forall in Hall. destruct (Hall c Hc) as (Hok & s & e & Hr & ? & ? & ?).
  rewrite Hok, Hr. unfold range_within. cbn.
  apply andb_true_intro. split; [|reflexivity].
  apply andb_true_intro. split; apply Z.leb_le; lia.
Qed.

Lemma output_ranges_contained_witness :
  ∃ r rw,
    mapTemplateContents sample_parser sample_template
      (λ ast _, [ForNode ast [Text (lit "a"); IdentifierCall (lit "x") 100 None];
                 ForNode sample_node [Newline; Throw boom];
                 IdentifierCall (lit "yz") 1 (Some 1)]) = Returns r ∧
    result r = Some rw ∧
    output_containment (mapping rw) = true.
Proof.
  eexists _, _. split; [vm_compute; reflexivity|]. split; [reflexivity|].
  eapply (output_ranges_contained sample_parser sample_template
            (λ ast _, [ForNode ast [Text (lit "a"); IdentifierCall (lit "x") 100 None];
                       ForNode sample_node [Newline; Throw boom];
                       IdentifierCall (lit "yz") 1 (Some 1)])); vm_compute; reflexivity.
Defined.

(** C2 as the claim words it fails: an [identifier] call inside a [forNode]
    scope with an offset outside the node's source range yields a child whose
    source range is not within its parent's. *)
Lemma identifier_source_range_not_contained :
  produced_mapping
    (mapTemplateContents sample_parser sample_template
       (λ ast _, [ForNode ast [IdentifierCall (lit "x") 100 None]]))
  = Some (MappingNode {| start := Int 0; end_ := Int 1 |} {| start := Int 0; end_ := Int 3 |}
            [MappingNode {| start := Int 0; end_ := Int 1 |} {| start := Int 0; end_ := Int 3 |}
               [MappingNode {| start := Int 0; end_ := Int 1 |}
                  {| start := Int 100; end_ := Int 101 |} []
                  (IdentifierSource {| name := lit "x" |})]
               (NodeSource sample_ast)]
            (NodeSource sample_ast)) ∧
  option_map containment_invariant
    (produced_mapping
       (mapTemplateContents sample_parser sample_template
          (λ ast _, [ForNode ast [IdentifierCall (lit "x") 100 None]])))
  = Some false.
Proof. split; reflexivity. Qed.

(** ** Text covered by the root's children *)

Lemma abutting_le lo maps hi : abutting lo maps hi → lo ≤ hi.
Proof.
  revert lo. induction maps as [|m rest IH]; intros lo; cbn.
  - lia.
  - intros (e & _ & Hle & Hrest). specialize (IH _ Hrest). lia.
Qed.

Lemma abutting_app lo a mid b hi :
  abutting lo a mid → abutting mid b hi → abutting lo (a ++ b) hi.
Proof.
  revert lo. induction a as [|m rest IH]; intros lo; cbn.
  - by intros ->.
  - intros (e & Hr & Hle & Hrest) Hb. exists e. eauto.
Qed.

Lemma substring_split text a b c :
  0 ≤ a → a ≤ b → b ≤ c →
  substring text a b ++ substring text b c = substring text a c.
Proof.
  intros Ha Hab Hbc. unfold substring.
  assert (Hdrop : drop (Z.to_nat b) text
                  = drop (Z.to_nat b - Z.to_nat a) (drop (Z.to_nat a) text)).
  { rewrite drop_drop. f_equal. lia. }
  rewrite Hdrop, take_take_drop. f_equal. lia.
Qed.

Lemma abutting_text text lo maps hi :
  abutting lo maps hi → 0 ≤ lo →
  concat (map (λ c, covered_text text (outputRange c)) maps) = substring text lo hi.
Proof.
  revert lo. induction maps as [|m rest IH]; intros lo; cbn.
  - intros -> _. unfold substring. by rewrite Nat.sub_diag.
  - intros (e & Hr & Hle & Hrest) Hlo.
    pose proof (abutting_le _ _ _ Hrest).
    rewrite (IH e Hrest) by lia. rewrite Hr. cbn.
    apply substring_split; lia.
Qed.

Lemma substring_all text : substring text 0 (len text) = text.
Proof.
  unfold substring, len. cbn. rewrite drop_0, Nat.sub_0_r, Nat2Z.id. by apply take_ge.
Qed.

Section Abutting.
Variable rangeForNode : Node → Range.

Lemma perform_abutting c st comp st' :
  scoped st → emits_unscoped c = false →
  perform rangeForNode c st = (comp, st') →
  ∃ segs maps errs, appended st st' segs maps errs ∧ abutting (offset st) maps (offset st').
Proof.
  intros Hsc Hc Hrun.
  destruct c as [| | | value | value o l | node callback | error]; try discriminate.
  - cbn [perform] in Hrun. rewrite emit_indent_run in Hrun. inversion Hrun; subst.
    exists [], [], []. split; [apply appended_set_indent | done].
  - cbn [perform] in Hrun. rewrite emit_dedent_run in Hrun. inversion Hrun; subst.
    exists [], [], []. split; [apply appended_set_indent | done].
  - cbn [perform] in Hrun. unfold emit_identifier in Hrun.
    edestruct captureMapping_appended as (st1 & segs & maps & errs & Heq & Happ & Habut);
      [exact Hsc | apply emit_text_throws_errors_only | |].
    2:{ rewrite Heq in Hrun. inversion Hrun; subst. eauto. }
    intros comp2 st2 Hcb. rewrite (emit_text_run _ _ (enter_scoped st)) in Hcb.
    inversion Hcb; subst.
    eexists _, [], []. split; cbn; rewrite ?app_nil_r; try done.
    constructor.
    pose proof (len_nonneg (join (if needsIndent st then [indent st; value] else [value]))).
    unfold join in *. lia.
  - rewrite perform_ForNode in Hrun. unfold emit_forNode in Hrun.
    destruct (capture_appended rangeForNode (rangeForNode node) (NodeSource node)
                callback st Hsc) as (st1 & segs & maps & errs & Heq & Happ & Habut).
    rewrite Heq in Hrun. inversion Hrun; subst. eauto.
  - inversion Hrun; subst. exists [], [], []. split; [apply appended_refl | done].
Qed.

Lemma run_abutting body :
  ∀ st comp st', scoped st → forallb (λ c, negb (emits_unscoped c)) body = true →
    run rangeForNode body st = (comp, st') →
    ∃ segs maps errs, appended st st' segs maps errs ∧ abutting (offset st) maps (offset st').
Proof.
  induction body as [|c rest IH]; intros st comp st' Hsc Hall Hrun.
  - inversion Hrun; subst. exists [], [], []. split; [apply appended_refl | done].
  - cbn [forallb] in Hall. apply andb_prop in Hall as [Hc Hrest].
    apply negb_true_iff in Hc. rewrite run_cons in Hrun.
    destruct (perform rangeForNode c st) as [[[]|e] st1] eqn:E1.
    + destruct (perform_abutting _ _ _ _ Hsc Hc E1) as (s1 & m1 & e1 & H1 & A1).
      destruct (IH st1 _ _ (appended_scoped _ _ _ _ _ Hsc H1) Hrest Hrun)
        as (s2 & m2 & e2 & H2 & A2).
      eexists _, _, _. split; [eapply appended_trans; eassumption|].
      eapply abutting_app; eassumption.
    + inversion Hrun; subst. eapply perform_abutting; eassumption.
Qed.
End Abutting.

Lemma appended_initial_unique st segs maps errs segs' maps' errs' :
  appended initial st segs maps errs → appended initial st segs' maps' errs' →
  segs = segs' ∧ maps = maps'.
Proof.
  intros [Hs Hm _ _ _] [Hs' Hm' _ _ _]. cbn in *.
  rewrite Hs in Hs'. rewrite Hm in Hm'. by inversion Hs'; inversion Hm'.
Qed.

(** C5, as the code has it. In every result the root's output range is
    [{0, length(code)}]. The substrings of [code] covered by the root's
    children, concatenated in order, are the whole of [code] when the driver
    calls [text()] and [newline()] only inside [forNode] scopes; text the driver
    emits outside every scope is in [code] and under no child. *)
Theorem root_covers_code preprocess template callback ast r rw :
  preprocess template = Parsed ast →
  mapTemplateContents preprocess template callback = Returns r →
  result r = Some rw →
  outputRange (mapping rw) = {| start := Int 0; end_ := Int (len (code rw)) |} ∧
  (forallb (λ c, negb (emits_unscoped c)) (callback ast (calculateLineOffsets template)) = true →
   children_text (code rw) (mapping rw) = code rw).
Proof.
  intros Hparse Hret Hres.
  destruct (mapTemplateContents_returns _ _ _ _ _ Hret Hres)
    as (ast' & st & segs & maps & errs & Hparse' & Hrun & Happ & Hcode & Hmap & _).
  rewrite Hparse in Hparse'. inversion Hparse'; subst ast'. clear Hparse'.
  rewrite Hmap, Hcode. split; [reflexivity|].
  intros Hall.
  assert (Hinit : scoped initial) by (split; discriminate).
  destruct (run_abutting _ _ _ _ _ Hinit Hall Hrun) as (segs' & maps' & errs' & Happ' & Habut).
  destruct (appended_initial_unique _ _ _ _ _ _ _ Happ Happ') as [<- <-].
  destruct Happ as [_ _ Hoff _ _]. cbn in Hoff.
  unfold children_text. cbn [children].
  rewrite (abutting_text _ _ _ _ Habut) by (cbn; lia).
  rewrite Hoff. cbn. apply substring_all.
Qed.

Lemma root_covers_code_witness :
  ∃ r rw,
    mapTemplateContents sample_parser sample_template
      (λ ast _, [ForNode ast [Text (lit "ab"); Newline]; Indent;
                 IdentifierCall (lit "c") 2 None]) = Returns r ∧
    result r = Some rw ∧
    code rw = lit "ab" ++ [LF] ++ lit "  c" ∧
    outputRange (mapping rw) = {| start := Int 0; end_ := Int 6 |} ∧
    children_text (code rw) (mapping rw) = code rw.
Proof.
  eexists _, _. split; [vm_compute; reflexivity|]. split; [reflexivity|].
  split; [reflexivity|].
  edestruct (root_covers_code sample_parser sample_template
               (λ ast _, [ForNode ast [Text (lit "ab"); Newline]; Indent;
                          IdentifierCall (lit "c") 2 None]) sample_ast)
    as [Hroot Hcover]; [reflexivity | vm_compute; reflexivity | reflexivity |].
  split; [exact Hroot | apply Hcover; reflexivity].
Defined.

(** C5 as the claim words it fails: text emitted outside every scope is part
    of [code] and covered by no child of the root. *)
Lemma unscoped_text_not_covered :
  produced_code
    (mapTemplateContents sample_parser sample_template
       (λ ast _, [ForNode ast [Text (lit "a")]; Text (lit "bc")])) = Some (lit "abc") ∧
  option_map (children_text (lit "abc"))
    (produced_mapping
       (mapTemplateContents sample_parser sample_template
          (λ ast _, [ForNode ast [Text (lit "a")]; Text (lit "bc")]))) = Some (lit "a").
Proof. split; reflexivity. Qed.

(** ** Indentation *)

Section Indentation.
Variable rangeForNode : Node → Range.

Lemma captureMapping_agree hbsRange source callback s1 s2 :
  same_but_indent s1 s2 → needsIndent s2 = false →
  agree (callback (enter s1)) (callback (enter s2)) →
  agree (captureMapping hbsRange source callback s1) (captureMapping hbsRange source callback s2).
Proof.
  intros (Hs & Hm & Ho & Hn & Hc) Hflag Hcb.
  unfold captureMapping, mbind, M_bind, try_catch, get, modify. cbn.
  unfold enter in Hcb. cbn in Hcb.
  destruct (callback _) as [c1 t1]. destruct (callback _) as [c2 t2].
  destruct Hcb as (Hcomp & (Hs' & Hm' & Ho' & Hn' & Hc') & Hflag'). cbn in *. subst c2.
  destruct t1 as [ss1 ms1 i1 o1 n1 e1], t2 as [ss2 ms2 i2 o2 n2 e2]. cbn in *. subst.
  rewrite Ho.
  destruct c1 as [[]|e]; unfold_statements.
  - destruct (decide (offset s2 ≠ o2)); unfold_statements.
    + destruct (tl ms2); unfold_statements; [done|].
      destruct (tl ss2); unfold_statements; done.
    + done.
  - destruct e as [e| |]; unfold_statements; [|done..].
    destruct (decide (offset s2 ≠ offset s2)); [done|]. unfold_statements. done.
Qed.

Lemma perform_agree c :
  newline_free c = true →
  ∀ s1 s2, same_but_indent s1 s2 → needsIndent s2 = false →
    agree (perform rangeForNode c s1) (perform rangeForNode c s2).
Proof.
  induction c as [| | | value | value o l | node callback IH | error]
    using call_ind; intros Hfree s1 s2 Hsame Hflag; try discriminate.
  - done.
  - done.
  - destruct Hsame as (Hs & Hm & Ho & Hn & Hc).
    destruct s1 as [ss1 ms1 i1 o1 n1 e1], s2 as [ss2 ms2 i2 o2 n2 e2]. cbn in *. subst.
    unfold emit_text. unfold_statements. destruct ss2; done.
  - cbn [perform]. unfold emit_identifier. apply captureMapping_agree; [done..|].
    destruct Hsame as (Hs & Hm & Ho & Hn & Hc).
    destruct s1 as [ss1 ms1 i1 o1 n1 e1], s2 as [ss2 ms2 i2 o2 n2 e2]. cbn in *. subst.
    unfold emit_text, enter. unfold_statements. done.
  - rewrite !perform_ForNode. unfold emit_forNode. apply captureMapping_agree; [done..|].
    cbn [newline_free] in Hfree.
    assert (Henter : same_but_indent (enter s1) (enter s2)).
    { destruct Hsame as (Hs & Hm & Ho & Hn & Hc). unfold enter. repeat split; cbn; congruence. }
    assert (Hflag' : needsIndent (enter s2) = false) by done.
    revert Henter Hflag'. generalize (enter s1) (enter s2). clear Hsame Hflag.
    induction IH as [|c rest Hc _ IHrest]; intros t1 t2 Hsame Hflag; [done|].
    cbn [forallb] in Hfree. apply andb_prop in Hfree as [Hfc Hfrest].
    rewrite !run_cons.
    destruct (Hc Hfc t1 t2 Hsame Hflag) as (Hcomp & Hsame' & Hflag').
    destruct (perform rangeForNode c t1) as [c1 t1'].
    destruct (perform rangeForNode c t2) as [c2 t2']. cbn in *. subst c2.
    destruct c1 as [[]|e]; [by apply IHrest | done].
  - done.
Qed.

Lemma run_agree body :
  forallb newline_free body = true →
  ∀ s1 s2, same_but_indent s1 s2 → needsIndent s2 = false →
    agree (run rangeForNode body s1) (run rangeForNode body s2).
Proof.
  induction body as [|c rest IH]; intros Hfree s1 s2 Hsame Hflag; [done|].
  cbn [forallb] in Hfree. apply andb_prop in Hfree as [Hfc Hfrest].
  rewrite !run_cons.
  destruct (perform_agree c Hfc s1 s2 Hsame Hflag) as (Hcomp & Hsame' & Hflag').
  destruct (perform rangeForNode c s1) as [c1 t1].
  destruct (perform rangeForNode c s2) as [c2 t2]. cbn in *. subst c2.
  destruct c1 as [[]|e]; [by apply IH | done].
Qed.
End Indentation.

(** C8, as the code has it. [indent()] puts one two-space unit at the end of
    the prefix and [dedent()] takes the first two characters off it (nothing
    off an empty prefix). When no indentation is pending at the time of the
    call, calls that follow it up to the next [newline()] complete the same way
    and leave the same text, nodes, offset and errors as without it. When
    indentation is pending (a [newline()] and no [text()] since), a [text()]
    call right after it already uses the changed prefix: it puts the prefix
    with one more unit after [indent()], and the prefix without its first two
    characters after [dedent()], where without the call it puts the prefix as
    it was. *)
Theorem indent_waits_for_pending_indentation rangeForNode st body :
  indent (emit_indent st).2 = indent st ++ lit "  " ∧
  indent (emit_dedent st).2 = drop 2 (indent st) ∧
  len (indent (emit_indent st).2) = len (indent st) + 2 ∧
  len (indent (emit_dedent st).2) = Z.max 0 (len (indent st) - 2) ∧
  (needsIndent st = false → forallb newline_free body = true →
   agree (run rangeForNode body (emit_indent st).2) (run rangeForNode body st) ∧
   agree (run rangeForNode body (emit_dedent st).2) (run rangeForNode body st)) ∧
  (needsIndent st = true → scoped st → ∀ value,
   ∃ indented dedented plain,
     (emit_indent;; emit_text value) st = (Normal (), indented) ∧
     (emit_dedent;; emit_text value) st = (Normal (), dedented) ∧
     emit_text value st = (Normal (), plain) ∧
     segmentsStack indented = push_top [indent st ++ lit "  "; value] (segmentsStack st) ∧
     segmentsStack dedented = push_top [drop 2 (indent st); value] (segmentsStack st) ∧
     segmentsStack plain = push_top [indent st; value] (segmentsStack st) ∧
     offset indented = offset st + (len (indent st) + 2) + len value ∧
     offset dedented = offset st + Z.max 0 (len (indent st) - 2) + len value ∧
     offset plain = offset st + len (indent st) + len value ∧
     needsIndent indented = false ∧ needsIndent dedented = false ∧
     needsIndent plain = false).
Proof.
  split; [reflexivity|]. split; [reflexivity|].
  split; [cbn; rewrite len_app; reflexivity|].
  assert (Hdrop : len (drop 2 (indent st)) = Z.max 0 (len (indent st) - 2))
    by (unfold len; rewrite length_drop; lia).
  split; [exact Hdrop|].
  split.
  - intros Hflag Hfree. split; apply run_agree; try done.
  - intros Hflag Hsc value.
    assert (Hin : scoped (emit_indent st).2) by exact Hsc.
    assert (Hde : scoped (emit_dedent st).2) by exact Hsc.
    exists (emit_text value (emit_indent st).2).2, (emit_text value (emit_dedent st).2).2,
      (emit_text value st).2.
    change ((emit_indent;; emit_text value) st) with (emit_text value (emit_indent st).2).
    change ((emit_dedent;; emit_text value) st) with (emit_text value (emit_dedent st).2).
    rewrite (emit_text_run value _ Hin), (emit_text_run value _ Hde),
      (emit_text_run value _ Hsc).
    cbn. rewrite Hflag. cbn.
    repeat split.
    + unfold join. cbn. rewrite app_nil_r, !len_app. cbn. unfold len at 2. cbn. lia.
    + unfold join. cbn. rewrite app_nil_r, len_app, Hdrop. lia.
    + unfold join. cbn. rewrite app_nil_r, len_app. lia.
Qed.

Lemma indent_waits_for_pending_indentation_witness :
  agree
    (run sample_rangeForNode [Text (lit "a"); ForNode sample_node [Text (lit "b")]]
       (emit_indent initial).2)
    (run sample_rangeForNode [Text (lit "a"); ForNode sample_node [Text (lit "b")]] initial) ∧
  ∃ indented dedented plain,
    (emit_indent;; emit_text (lit "x")) (emit_newline (set_indent (lit "    ") initial)).2
      = (Normal (), indented) ∧
    (emit_dedent;; emit_text (lit "x")) (emit_newline (set_indent (lit "    ") initial)).2
      = (Normal (), dedented) ∧
    emit_text (lit "x") (emit_newline (set_indent (lit "    ") initial)).2
      = (Normal (), plain) ∧
    segmentsStack indented = [[[LF]; lit "      "; lit "x"]] ∧
    segmentsStack dedented = [[[LF]; lit "  "; lit "x"]] ∧
    segmentsStack plain = [[[LF]; lit "    "; lit "x"]] ∧
    offset indented = 8 ∧ offset dedented = 4 ∧ offset plain = 6.
Proof.
  split.
  - destruct (indent_waits_for_pending_indentation sample_rangeForNode initial
                [Text (lit "a"); ForNode sample_node [Text (lit "b")]])
      as (_ & _ & _ & _ & Hsame & _).
    apply Hsame; reflexivity.
  - destruct (indent_waits_for_pending_indentation sample_rangeForNode
                (emit_newline (set_indent (lit "    ") initial)).2 [])
      as (_ & _ & _ & _ & _ & Hpending).
    destruct (Hpending eq_refl) with (value := lit "x")
      as (indented & dedented & plain & Hin & Hde & Hpl & Sin & Sde & Spl & Oin & Ode & Opl & _).
    { split; discriminate. }
    exists indented, dedented, plain.
    repeat split; assumption.
Defined.

(** C8 as the claim words it fails: after [newline()], an [indent()] changes
    the text of the [text()] call that follows it, before any further
    [newline()]; and a [dedent()] on an empty prefix changes nothing. *)
Lemma indent_after_newline_changes_next_text :
  produced_code
    (mapTemplateContents sample_parser sample_template
       (λ _ _, [Newline; Indent; Text (lit "x")])) = Some ([LF] ++ lit "  x") ∧
  produced_code
    (mapTemplateContents sample_parser sample_template
       (λ _ _, [Newline; Text (lit "x")])) = Some ([LF] ++ lit "x") ∧
  indent (emit_dedent initial).2 = indent initial.
Proof. repeat split. Qed.

(** ** The line-offset index *)

Lemma array_set_append offsets v : array_set offsets (length offsets) v = offsets ++ [v].
Proof.
  unfold array_set. destruct (Nat.ltb_spec (length offsets) (length offsets)); [lia | done].
Qed.

(** The loop only ever writes one past the end of [offsets]. *)
Lemma offsets_loop_length lines :
  ∀ index total offsets, length offsets = S index →
    offsets_loop index lines total offsets = offsets ++ running_totals total lines.
Proof.
  induction lines as [|l rest IH]; intros index total offsets Hlen; cbn.
  - by rewrite app_nil_r.
  - replace (index + 1)%nat with (length offsets) by lia.
    rewrite array_set_append, IH by (rewrite length_app; cbn; lia).
    by rewrite <- app_assoc.
Qed.

Lemma running_totals_lookup lines :
  ∀ total k,
    running_totals total lines !! k =
      if decide (k < length lines)%nat
      then Some (total + foldr (λ l acc, len l + 1 + acc) 0 (take k lines))
      else None.
Proof.
  induction lines as [|l rest IH]; intros total k; cbn.
  - destruct (decide _); [lia | done].
  - destruct k as [|k]; cbn.
    + rewrite decide_True by lia. f_equal. lia.
    + rewrite IH. destruct (decide (k < length rest)%nat).
      * rewrite decide_True by lia. f_equal. lia.
      * rewrite decide_False by lia. done.
Qed.

(** Entry [n] of the table is the start of line [n]; there is none past the
    last line. *)
Lemma offsets_lookup template n col :
  undefined_or_add (offsets_loop 0 (split_lines template) 0 [0] !! n) col =
    position_offset template {| line := n; column := col |}.
Proof.
  unfold position_offset, line_start. cbn [line column].
  rewrite offsets_loop_length by done.
  destruct n as [|n]; cbn.
  - rewrite decide_True by lia. done.
  - rewrite running_totals_lookup, Nat.sub_0_r.
    destruct (decide (n < length (split_lines template))%nat).
    + rewrite decide_True by lia. done.
    + rewrite decide_False by lia. done.
Qed.

Lemma whitespace_prefix_all s :
  forallb is_whitespace s = true → whitespace_prefix s = s.
Proof.
  induction s as [|c rest IH]; cbn; [done|].
  destruct (is_whitespace c); [|done]. cbn. intros H. by rewrite IH.
Qed.

Lemma whitespace_prefix_length s :
  length (whitespace_prefix s) = length s ↔ forallb is_whitespace s = true.
Proof.
  split; [|by intros ->%whitespace_prefix_all].
  induction s as [|c rest IH]; cbn; [done|].
  destruct (is_whitespace c); cbn; [|done]. intros H. apply IH. lia.
Qed.

Lemma whitespace_prefix_app a b :
  whitespace_prefix (a ++ b) =
    if forallb is_whitespace a then a ++ whitespace_prefix b else whitespace_prefix a.
Proof.
  induction a as [|c rest IH]; cbn; [done|].
  destruct (is_whitespace c); cbn; [|done]. rewrite IH. by destruct (forallb _ rest).
Qed.

Lemma forallb_rev (f : code_unit → bool) s : forallb f (rev s) = forallb f s.
Proof.
  induction s as [|c rest IH]; cbn; [done|].
  rewrite forallb_app, IH. cbn. rewrite andb_true_r. apply andb_comm.
Qed.

(** What the two regular expressions measure. *)
Lemma leading_match_length s :
  match_length (LEADING_WHITESPACE_exec s) = leading_whitespace s.
Proof.
  unfold LEADING_WHITESPACE_exec, leading_whitespace.
  by destruct (whitespace_prefix s).
Qed.

Lemma trailing_match_length s :
  match_length (TRAILING_WHITESPACE_exec s) = trailing_whitespace s.
Proof.
  unfold trailing_whitespace. induction s as [|c rest IH]; [done|].
  cbn [TRAILING_WHITESPACE_exec].
  destruct (forallb is_whitespace (c :: rest)) eqn:Hall.
  - rewrite whitespace_prefix_all by (by rewrite forallb_rev).
    cbn [match_length]. unfold len. by rewrite length_rev.
  - rewrite IH. cbn [rev]. rewrite whitespace_prefix_app, forallb_rev.
    destruct (forallb is_whitespace rest) eqn:Hrest; [|done].
    cbn in Hall. rewrite Hrest, andb_true_r in Hall. cbn. rewrite Hall, app_nil_r.
    by rewrite whitespace_prefix_all by (by rewrite forallb_rev).
Qed.

(** The table entry of a line is where that line begins in the template:
    what comes before it are the earlier lines, each with its terminator. *)
Lemma split_lines_not_nil template : split_lines template ≠ [].
Proof.
  destruct template as [|c rest]; cbn; [done|].
  destruct (c =? LF)%N; [done|]. by destruct (split_lines rest).
Qed.

Lemma unsplit_split_lines template : unsplit (split_lines template) = template.
Proof.
  induction template as [|c rest IH]; cbn; [done|].
  destruct (N.eqb_spec c LF) as [->|Hne].
  - cbn. pose proof (split_lines_not_nil rest).
    rewrite IH. by destruct (split_lines rest).
  - pose proof (split_lines_not_nil rest).
    destruct (split_lines rest) as [|l more] eqn:E; [done|].
    rewrite <- IH. cbn. by destruct more.
Qed.

Lemma line_start_locates lines :
  ∀ n, (1 ≤ n ≤ length lines)%nat →
    drop (Z.to_nat (line_start lines n)) (unsplit lines) = unsplit (drop (n - 1) lines).
Proof.
  unfold line_start.
  induction lines as [|l rest IH]; intros n Hn; cbn in Hn; [lia|].
  destruct n as [|[|n]]; [lia| |].
  - cbn. by rewrite drop_0.
  - replace (S (S n) - 1)%nat with (S n) by lia. cbn [take foldr drop].
    specialize (IH (S n)). replace (S n - 1)%nat with n in IH by lia.
    rewrite <- IH by lia.
    destruct rest as [|l' rest']; [cbn in Hn; lia|].
    cbn [unsplit].
    pose proof (len_nonneg l) as Hl.
    match goal with |- context [foldr ?f 0 ?t] => set (tot := foldr f 0 t) end.
    assert (0 ≤ tot).
    { subst tot. generalize (take n (l' :: rest')). intros t.
      induction t as [|x t IHt]; cbn; [lia|]. pose proof (len_nonneg x). lia. }
    replace (Z.to_nat (len l + 1 + tot)) with (length (l ++ [LF]) + Z.to_nat tot)%nat
      by (rewrite length_app; cbn; unfold len in *; lia).
    rewrite <- drop_drop, app_assoc, drop_app_length. done.
Qed.

(** C7. [rangeForNode] takes each endpoint to the start of its line, the sum
    of the lengths of the lines before it with their terminators, plus its
    column. For a [TextNode] whose text is not entirely whitespace it then
    moves the start forward by the number of whitespace characters the text
    starts with and the end back by the number it ends with; a [TextNode] of
    whitespace only (the empty text too) and every other node keep the range
    of their endpoints. *)
Theorem rangeForNode_offsets_and_trimming template node :
  calculateLineOffsets template node =
    let s := position_offset template (loc_start (loc node)) in
    let e := position_offset template (loc_end (loc node)) in
    if decide (type node = "TextNode") then
      if entirely_whitespace (chars node) then {| start := s; end_ := e |}
      else {| start := num_add s (Int (leading_whitespace (chars node)));
              end_ := num_sub e (Int (trailing_whitespace (chars node))) |}
    else {| start := s; end_ := e |}.
Proof.
  unfold calculateLineOffsets. cbn zeta.
  destruct (loc node) as [[l1 c1] [l2 c2]]. cbn [loc_start loc_end line column].
  rewrite !offsets_lookup.
  destruct (decide (type node = "TextNode")); [|done].
  rewrite leading_match_length, trailing_match_length.
  unfold entirely_whitespace, leading_whitespace.
  destruct (forallb is_whitespace (chars node)) eqn:Hall.
  - rewrite decide_False; [done|]. intros H. apply H. unfold len.
    f_equal. by apply whitespace_prefix_length.
  - rewrite decide_True; [done|]. unfold len. intros H%Nat2Z.inj.
    apply whitespace_prefix_length in H. congruence.
Qed.

Example rangeForNode_trims_text :
  calculateLineOffsets (lit "ab" ++ [LF] ++ lit "c" ++ [LF])
    {| type := "TextNode";
       loc := {| loc_start := {| line := 1; column := 0 |};
                 loc_end := {| line := 3; column := 0 |} |};
       chars := lit " b" ++ [LF] ++ lit "c" ++ [LF] |}
  = {| start := Int 1; end_ := Int 4 |}.
Proof. reflexivity. Qed.

Example rangeForNode_keeps_blank_text :
  calculateLineOffsets (lit "ab" ++ [LF] ++ lit " " ++ [LF])
    {| type := "TextNode";
       loc := {| loc_start := {| line := 1; column := 2 |};
                 loc_end := {| line := 3; column := 0 |} |};
       chars := [LF] ++ lit " " ++ [LF] |}
  = {| start := Int 2; end_ := Int 5 |}.
Proof. reflexivity. Qed.

Example rangeForNode_past_last_line :
  calculateLineOffsets (lit "abc") (node_at "ElementNode" 1 0 2 0)
  = {| start := Int 0; end_ := NaN |}.
Proof. reflexivity. Qed.

(** ** Scenarios of the specification *)

Example scenario_whole_template :
  mapTemplateContents sample_parser sample_template
    (λ ast _, [ForNode ast [Text (lit "abc")]])
  = Returns {| errors := [];
               result := Some {| code := lit "abc";
                                 mapping :=
                                   MappingNode {| start := Int 0; end_ := Int 3 |}
                                     {| start := Int 0; end_ := Int 3 |}
                                     [MappingNode {| start := Int 0; end_ := Int 3 |}
                                        {| start := Int 0; end_ := Int 3 |} []
                                        (NodeSource sample_ast)]
                                     (NodeSource sample_ast) |} |}.
Proof. reflexivity. Qed.

Example scenario_nested_failure :
  mapTemplateContents sample_parser sample_template
    (λ ast _, [ForNode ast [Text (lit "x");
                            ForNode sample_node [Text (lit "yy"); Throw boom]]])
  = Returns {| errors := [{| message := lit "boom";
                             location := {| start := Int 1; end_ := Int 2 |} |}];
               result := Some {| code := lit "x";
                                 mapping :=
                                   MappingNode {| start := Int 0; end_ := Int 1 |}
                                     {| start := Int 0; end_ := Int 3 |}
                                     [MappingNode {| start := Int 0; end_ := Int 1 |}
                                        {| start := Int 0; end_ := Int 3 |} []
                                        (NodeSource sample_ast)]
                                     (NodeSource sample_ast) |} |}.
Proof. reflexivity. Qed.

(** * Further properties of the engine *)

(** ** The engine against the reading without stacks *)

Lemma emitted_by_ForNode rangeForNode node callback p off :
  emitted_by_call rangeForNode (ForNode node callback) p off =
    let inner := emitted_by rangeForNode callback p off in
    match em_thrown inner with
    | Some error =>
        {| em_text := []; em_nodes := [];
           em_errors := em_errors inner ++
             [{| message := error_message error; location := rangeForNode node |}];
           em_pen := em_pen inner; em_thrown := None |}
    | None =>
        {| em_text := em_text inner;
           em_nodes := scope_node off (em_text inner) (rangeForNode node)
                         (em_nodes inner) (NodeSource node);
           em_errors := em_errors inner;
           em_pen := em_pen inner; em_thrown := None |}
    end.
Proof. reflexivity. Qed.

Lemma len_zero_nil (s : jsstring) : len s = 0 → s = [].
Proof. unfold len. destruct s; [done|]. cbn. lia. Qed.

Lemma capture_tells hbsRange source callback st comp2 st2 segs maps errs :
  scoped st →
  callback (enter st) = (comp2, st2) →
  appended (enter st) st2 segs maps errs →
  throws_errors_only (comp2, st2) →
  ∃ st', captureMapping hbsRange source callback st = (Normal (), st') ∧
    pen_of st' = pen_of st2 ∧
    match comp2 with
    | Thrown (ThrownError e) =>
        appended st st' [] []
          (errs ++ [{| message := error_message e; location := hbsRange |}])
    | Thrown _ => False
    | Normal _ =>
        ∃ segs', appended st st' segs'
                   (scope_node (offset st) (join segs) hbsRange maps source) errs
                 ∧ join segs' = join segs
    end.
Proof.
  intros Hsc Hcb Happ Hthrown. destruct comp2 as [[]|[e| |]]; try done.
  - erewrite captureMapping_normal by eauto.
    pose proof (nested_le _ _ _ (app_nested _ _ _ _ _ Happ)) as Hle.
    destruct Happ as [Hss Hms Hoff Hnest Herr]. cbn in Hss, Hms, Hoff, Hnest, Herr, Hle.
    eexists. split; [reflexivity|]. unfold scope_node.
    destruct (decide (offset st = offset st2)) as [Heq|Hne].
    + split; [reflexivity|]. rewrite decide_True by lia.
      assert (join segs = []) as -> by (apply len_zero_nil; lia).
      exists []. split; [|reflexivity]. split; cbn.
      * by rewrite push_top_nil.
      * by rewrite push_top_nil.
      * unfold len; cbn; lia.
      * constructor. lia.
      * done.
    + split; [reflexivity|]. rewrite decide_False by lia.
      exists segs. split; [|reflexivity]. rewrite <- Hoff. split; cbn; try done.
      constructor; [lia|lia|done|]. constructor. lia.
  - erewrite captureMapping_thrown by eauto.
    destruct Happ as [Hss Hms Hoff Hnest Herr]. cbn in Hss, Hms, Hoff, Hnest, Herr.
    eexists. split; [reflexivity|]. split; [reflexivity|]. split; cbn.
    + rewrite Hss. by rewrite push_top_nil.
    + rewrite Hms. by rewrite push_top_nil.
    + unfold len; cbn; lia.
    + constructor. lia.
    + rewrite Herr. by rewrite app_assoc.
Qed.

Section Tells.
Variable rangeForNode : Node → Range.

Lemma tells_nothing st : tells st st (Normal ()) (nothing_emitted (pen_of st) None).
Proof. split; [|done]. exists []. split; [apply appended_refl | done]. Qed.

Lemma tells_seq st st1 st2 comp r1 r2 :
  tells st st1 (Normal ()) r1 → em_thrown r1 = None → tells st1 st2 comp r2 →
  tells st st2 comp
    {| em_text := em_text r1 ++ em_text r2; em_nodes := em_nodes r1 ++ em_nodes r2;
       em_errors := em_errors r1 ++ em_errors r2; em_pen := em_pen r2;
       em_thrown := em_thrown r2 |}.
Proof.
  intros ((s1 & A1 & J1) & _ & _) _ ((s2 & A2 & J2) & P2 & C2).
  split; [|done]. exists (s1 ++ s2). split.
  - eapply appended_trans; eassumption.
  - cbn. by rewrite join_app, J1, J2.
Qed.

Lemma text_tells value st :
  scoped st →
  ∃ st', emit_text value st = (Normal (), st') ∧
    appended st st' (if needsIndent st then [indent st; value] else [value]) [] [] ∧
    join (if needsIndent st then [indent st; value] else [value])
      = text_with_indent (pen_of st) value ∧
    pen_of st' = {| pen_indent := indent st; pen_pending := false |}.
Proof.
  intros Hsc. rewrite (emit_text_run _ _ Hsc). eexists. split; [reflexivity|].
  split; [|split; [|reflexivity]].
  - split; cbn; rewrite ?app_nil_r; try done.
    + by rewrite push_top_nil.
    + constructor.
      pose proof (len_nonneg (join (if needsIndent st then [indent st; value] else [value]))).
      unfold join in *. lia.
  - unfold text_with_indent, join. cbn. destruct (needsIndent st); cbn; by rewrite ?app_nil_r.
Qed.

Lemma perform_tells c :
  ∀ st comp st', scoped st → perform rangeForNode c st = (comp, st') →
    tells st st' comp (emitted_by_call rangeForNode c (pen_of st) (offset st)).
Proof.
  induction c as [| | | value | value o l | node callback IH | error]
    using call_ind; intros st comp st' Hsc Hrun.
  - cbn [perform] in Hrun. rewrite (emit_newline_run _ Hsc) in Hrun. inversion Hrun; subst.
    split; [|done]. exists [[LF]]. split; [|done].
    split; cbn; rewrite ?app_nil_r; try done.
    + by rewrite push_top_nil.
    + constructor. lia.
  - cbn [perform] in Hrun. rewrite emit_indent_run in Hrun. inversion Hrun; subst.
    split; [|done]. exists []. split; [apply appended_set_indent | done].
  - cbn [perform] in Hrun. rewrite emit_dedent_run in Hrun. inversion Hrun; subst.
    split; [|done]. exists []. split; [apply appended_set_indent | done].
  - cbn [perform] in Hrun.
    destruct (text_tells value st Hsc) as (st1 & Heq & Happ & Hjoin & Hpen).
    rewrite Heq in Hrun. inversion Hrun; subst. split; [|done]. eauto.
  - cbn [perform] in Hrun. unfold emit_identifier in Hrun.
    destruct (text_tells value _ (enter_scoped st)) as (st2 & Heq & Happ & Hjoin & Hpen).
    destruct (capture_tells
                {| start := Int o; end_ := Int (o + default (len value) l) |}
                (IdentifierSource {| name := value |}) _ _ _ _ _ _ _ Hsc Heq Happ I)
      as (st1 & Hcap & Hpen1 & segs' & Happ1 & Hjoin1).
    rewrite Hcap in Hrun. inversion Hrun; subst. cbn [emitted_by_call].
    change (pen_of (enter st)) with (pen_of st) in Hjoin.
    rewrite Hjoin in Happ1, Hjoin1.
    split; [|split; [by rewrite Hpen1, Hpen | done]].
    exists segs'. cbn [em_text em_nodes em_errors]. by split.
  - rewrite perform_ForNode in Hrun. unfold emit_forNode in Hrun.
    assert (Hbody : ∀ st1 comp2 st2, scoped st1 →
              run rangeForNode callback st1 = (comp2, st2) →
              tells st1 st2 comp2 (emitted_by rangeForNode callback (pen_of st1) (offset st1))).
    { clear Hrun Hsc st comp st'.
      induction IH as [|c rest Hc _ IHrest]; intros st1 comp2 st2 Hsc1 Hr.
      - inversion Hr; subst. apply tells_nothing.
      - rewrite run_cons in Hr. cbn [emitted_by].
        destruct (perform rangeForNode c st1) as [comp1 st1'] eqn:E1.
        pose proof (Hc _ _ _ Hsc1 E1) as Hfirst.
        destruct (em_thrown (emitted_by_call rangeForNode c (pen_of st1) (offset st1))) eqn:Hthr.
        + destruct Hfirst as (Hseg & Hpen & Hcomp). rewrite Hthr in Hcomp. subst comp1.
          inversion Hr; subst. split; [done|]. split; [done|]. by rewrite Hthr.
        + pose proof Hfirst as ((s1 & A1 & J1) & P1 & Hcomp).
          rewrite Hthr in Hcomp. subst comp1.
          specialize (IHrest st1' comp2 st2 (appended_scoped _ _ _ _ _ Hsc1 A1) Hr).
          rewrite P1 in IHrest. rewrite (app_offset _ _ _ _ _ A1), J1 in IHrest.
          eapply tells_seq; eassumption. }
    destruct (run rangeForNode callback (enter st)) as [comp2 st2] eqn:Hcb.
    pose proof (Hbody _ _ _ (enter_scoped st) Hcb) as ((segs & Happ & Hjoin) & Hpen & Hcomp).
    change (pen_of (enter st)) with (pen_of st) in *.
    change (offset (enter st)) with (offset st) in *.
    pose proof (run_throws_errors_only rangeForNode callback (enter st)) as Hthrown.
    rewrite Hcb in Hthrown.
    destruct (capture_tells (rangeForNode node) (NodeSource node) _ _ _ _ _ _ _
                Hsc Hcb Happ Hthrown)
      as (st1 & Hcap & Hpen1 & Hres).
    rewrite Hcap in Hrun. inversion Hrun; subst comp st1. clear Hrun.
    rewrite emitted_by_ForNode. cbn zeta.
    destruct (em_thrown (emitted_by rangeForNode callback (pen_of st) (offset st))) as [e|].
    + subst comp2. split; [|split; [by rewrite Hpen1, Hpen | done]].
      exists []. split; [exact Hres | done].
    + subst comp2. destruct Hres as (segs' & Happ1 & Hjoin1).
      split; [|split; [by rewrite Hpen1, Hpen | done]].
      exists segs'. cbn [em_text em_nodes em_errors]. split.
      * by rewrite <- Hjoin.
      * by rewrite Hjoin1.
  - inversion Hrun; subst. split; [|done]. exists []. split; [apply appended_refl | done].
Qed.

Lemma run_tells body :
  ∀ st comp st', scoped st → run rangeForNode body st = (comp, st') →
    tells st st' comp (emitted_by rangeForNode body (pen_of st) (offset st)).
Proof.
  induction body as [|c rest IH]; intros st comp st' Hsc Hrun.
  - inversion Hrun; subst. apply tells_nothing.
  - rewrite run_cons in Hrun. cbn [emitted_by].
    destruct (perform rangeForNode c st) as [comp1 st1] eqn:E1.
    pose proof (perform_tells c _ _ _ Hsc E1) as Hfirst.
    destruct (em_thrown (emitted_by_call rangeForNode c (pen_of st) (offset st))) eqn:Hthr.
    + destruct Hfirst as (Hseg & Hpen & Hcomp). rewrite Hthr in Hcomp. subst comp1.
      inversion Hrun; subst. split; [done|]. split; [done|]. by rewrite Hthr.
    + pose proof Hfirst as ((s1 & A1 & J1) & P1 & Hcomp).
      rewrite Hthr in Hcomp. subst comp1.
      specialize (IH st1 comp st' (appended_scoped _ _ _ _ _ Hsc A1) Hrun).
      rewrite P1 in IH. rewrite (app_offset _ _ _ _ _ A1), J1 in IH.
      eapply tells_seq; eassumption.
Qed.
End Tells.

(** A run of the whole driver, from the initial state. *)
Lemma run_initial_tells rangeForNode body comp st :
  run rangeForNode body initial = (comp, st) →
  let whole := emitted_by rangeForNode body {| pen_indent := []; pen_pending := false |} 0 in
  comp = match em_thrown whole with Some e => Thrown e | None => Normal () end ∧
  length (segmentsStack st) = 1%nat ∧
  join (hd [] (segmentsStack st)) = em_text whole ∧
  hd [] (mappingsStack st) = em_nodes whole ∧
  collected st = em_errors whole.
Proof.
  intros Hrun whole.
  assert (Hinit : scoped initial) by (split; discriminate).
  pose proof (run_tells _ _ _ _ _ Hinit Hrun) as ((segs & Happ & Hjoin) & _ & Hcomp).
  pose proof (appended_depth _ _ _ _ _ Happ) as [Hdepth _].
  destruct Happ as [Hss Hms _ _ Herr]. cbn in Hss, Hms, Herr.
  split; [exact Hcomp|]. split; [exact Hdepth|].
  rewrite Hss, Hms, Herr. by repeat split.
Qed.

Lemma mapTemplateContents_returns_reading preprocess template callback ast :
  preprocess template = Parsed ast →
  mapTemplateContents preprocess template callback = rewritten_by template callback ast.
Proof.
  intros Hparse. unfold mapTemplateContents, mapTemplateContents_with, rewritten_by. rewrite Hparse. cbn zeta.
  destruct (run _ _ initial) as [comp st] eqn:Hrun.
  destruct (run_initial_tells _ _ _ _ Hrun) as (Hcomp & Hdepth & Hcode & Hnodes & Herrs).
  destruct (em_thrown _); subst comp; [reflexivity|].
  rewrite decide_True by exact Hdepth. by rewrite Hcode, Hnodes, Herrs.
Qed.

(** X1. On every input the parser accepts and for every driver that throws
    [Error] objects only, [mapTemplateContents] ends as the reading by
    recursion on the driver's calls says: with the exception of the first
    [throw] outside every scope, or else with the text of the calls outside
    failed scopes as [code], their nodes under a root spanning
    [{0, length(code)}], and one error per failed scope in the order the
    scopes failed. *)
Theorem mapTemplateContents_reading preprocess template callback ast :
  preprocess template = Parsed ast →
  mapTemplateContents preprocess template callback = rewritten_by template callback ast.
Proof.
  intros Hparse. unfold mapTemplateContents, mapTemplateContents_with. rewrite Hparse. cbn zeta.
  set (rangeForNode := calculateLineOffsets template).
  destruct (run rangeForNode (callback ast rangeForNode) initial) as [comp st] eqn:Hrun.
  destruct (run_initial_tells _ _ _ _ Hrun) as (Hcomp & Hdepth & Hcode & Hnodes & Herrs).
  unfold rewritten_by. cbn zeta. fold rangeForNode.
  destruct (em_thrown (emitted_by rangeForNode (callback ast rangeForNode) _ 0)) as [e|].
  - by subst comp.
  - subst comp. rewrite decide_True by exact Hdepth.
    rewrite Hcode, Hnodes, Herrs. reflexivity.
Qed.

Lemma mapTemplateContents_reading_witness :
  mapTemplateContents sample_parser sample_template
    (λ ast _, [ForNode ast [Text (lit "a"); ForNode sample_node [Newline; Throw boom]];
               IdentifierCall (lit "b") 2 None])
  = Returns {| errors := [{| message := lit "boom";
                             location := {| start := Int 1; end_ := Int 2 |} |}];
               result := Some {| code := lit "ab";
                                 mapping :=
                                   MappingNode {| start := Int 0; end_ := Int 2 |}
                                     {| start := Int 0; end_ := Int 3 |}
                                     [MappingNode {| start := Int 0; end_ := Int 1 |}
                                        {| start := Int 0; end_ := Int 3 |} []
                                        (NodeSource sample_ast);
                                      MappingNode {| start := Int 1; end_ := Int 2 |}
                                        {| start := Int 2; end_ := Int 3 |} []
                                        (IdentifierSource {| name := lit "b" |})]
                                     (NodeSource sample_ast) |} |}.
Proof.
  rewrite (mapTemplateContents_reading sample_parser sample_template _ sample_ast eq_refl).
  reflexivity.
Defined.

(** ** What the reading shows *)

Section ReadingFacts.
Variable rangeForNode : Node → Range.

Lemma emitted_by_app a b p off :
  emitted_by rangeForNode (a ++ b) p off =
    let first := emitted_by rangeForNode a p off in
    match em_thrown first with
    | Some _ => first
    | None =>
        let others :=
          emitted_by rangeForNode b (em_pen first) (off + len (em_text first)) in
        {| em_text := em_text first ++ em_text others;
           em_nodes := em_nodes first ++ em_nodes others;
           em_errors := em_errors first ++ em_errors others;
           em_pen := em_pen others;
           em_thrown := em_thrown others |}
    end.
Proof.
  revert p off. induction a as [|c a IH]; intros p off.
  - cbn. rewrite Z.add_0_r. by destruct (emitted_by rangeForNode b p off).
  - cbn [app emitted_by]. cbn zeta.
    destruct (em_thrown (emitted_by_call rangeForNode c p off)) eqn:Hc.
    + by rewrite Hc.
    + rewrite IH. cbn zeta.
      set (r1 := emitted_by_call rangeForNode c p off) in *.
      set (r2 := emitted_by rangeForNode a (em_pen r1) (off + len (em_text r1))).
      destruct (em_thrown r2) eqn:Ha; cbn [em_thrown em_text em_nodes em_errors em_pen];
        rewrite ?Ha; [done|].
      by rewrite len_app, Z.add_assoc, !app_assoc.
Qed.

(** Calls that throw nowhere end normally and record nothing. *)
Lemma throw_free_emitted c :
  throw_free c = true →
  ∀ p off, em_thrown (emitted_by_call rangeForNode c p off) = None ∧
           em_errors (emitted_by_call rangeForNode c p off) = [].
Proof.
  induction c as [| | | value | value o l | node callback IH | error]
    using call_ind; intros Hfree p off; try done.
  rewrite emitted_by_ForNode. cbn zeta. cbn [throw_free] in Hfree.
  assert (Hbody : ∀ p off, em_thrown (emitted_by rangeForNode callback p off) = None ∧
                           em_errors (emitted_by rangeForNode callback p off) = []).
  { clear p off. induction IH as [|c rest Hc _ IHrest]; intros p off; [done|].
    cbn [forallb] in Hfree. apply andb_prop in Hfree as [Hfc Hfrest].
    cbn [emitted_by]. destruct (Hc Hfc p off) as [-> ->].
    destruct (IHrest Hfrest (em_pen (emitted_by_call rangeForNode c p off))
                (off + len (em_text (emitted_by_call rangeForNode c p off)))) as [Ht He].
    cbn. by rewrite Ht, He. }
  destruct (Hbody p off) as [-> ->]. done.
Qed.

Lemma throw_free_emitted_by body :
  forallb throw_free body = true →
  ∀ p off, em_thrown (emitted_by rangeForNode body p off) = None ∧
           em_errors (emitted_by rangeForNode body p off) = [].
Proof.
  induction body as [|c rest IH]; intros Hfree p off; [done|].
  cbn [forallb] in Hfree. apply andb_prop in Hfree as [Hfc Hfrest].
  cbn [emitted_by]. destruct (throw_free_emitted c Hfc p off) as [-> ->].
  destruct (IH Hfrest (em_pen (emitted_by_call rangeForNode c p off))
              (off + len (em_text (emitted_by_call rangeForNode c p off)))) as [Ht He].
  cbn. by rewrite Ht, He.
Qed.
End ReadingFacts.

(** X2. A driver that throws nowhere gets a result and an empty errors list. *)
Theorem throw_free_driver_has_no_errors preprocess template callback ast :
  preprocess template = Parsed ast →
  forallb throw_free (callback ast (calculateLineOffsets template)) = true →
  ∃ rw, mapTemplateContents preprocess template callback =
          Returns {| errors := []; result := Some rw |}.
Proof.
  intros Hparse Hfree.
  rewrite (mapTemplateContents_returns_reading _ _ _ _ Hparse). unfold rewritten_by. cbn zeta.
  destruct (throw_free_emitted_by (calculateLineOffsets template) _ Hfree
              {| pen_indent := []; pen_pending := false |} 0) as [-> ->].
  by eexists.
Qed.

Lemma throw_free_driver_has_no_errors_witness :
  ∃ rw, mapTemplateContents sample_parser sample_template
          (λ ast _, [ForNode ast [Text (lit "a"); Newline; IdentifierCall (lit "b") 1 None]])
        = Returns {| errors := []; result := Some rw |}.
Proof.
  apply (throw_free_driver_has_no_errors sample_parser sample_template _ sample_ast);
    reflexivity.
Defined.

(** X3. Putting calls that throw nowhere into a [forNode] scope changes
    neither the code nor the errors of the rewrite: only the mapping tree
    shows the scope. *)
Theorem forNode_leaves_code_unchanged preprocess template callback callback' ast
    pre node body post :
  preprocess template = Parsed ast →
  callback ast (calculateLineOffsets template) = pre ++ ForNode node body :: post →
  callback' ast (calculateLineOffsets template) = pre ++ body ++ post →
  forallb throw_free body = true →
  produced_code (mapTemplateContents preprocess template callback) =
    produced_code (mapTemplateContents preprocess template callback') ∧
  produced_errors (mapTemplateContents preprocess template callback) =
    produced_errors (mapTemplateContents preprocess template callback').
Proof.
  intros Hparse Hcb Hcb' Hfree.
  rewrite !(mapTemplateContents_returns_reading _ _ _ _ Hparse). unfold rewritten_by. cbn zeta.
  rewrite Hcb, Hcb'. set (rfn := calculateLineOffsets template).
  rewrite !emitted_by_app. cbn zeta.
  destruct (em_thrown (emitted_by rfn pre _ _)) as [e|]; [done|].
  set (p := em_pen _). set (off := 0 + _).
  change (ForNode node body :: post) with ([ForNode node body] ++ post).
  rewrite !emitted_by_app. cbn zeta.
  cbn [emitted_by]. rewrite emitted_by_ForNode. cbn zeta.
  destruct (throw_free_emitted_by rfn body Hfree p off) as [Hthr Herr].
  rewrite Hthr. cbn [em_thrown em_text em_errors em_pen].
  rewrite !app_nil_r.
  destruct (em_thrown (emitted_by rfn post _ _)); done.
Qed.

Lemma forNode_leaves_code_unchanged_witness :
  produced_code
    (mapTemplateContents sample_parser sample_template
       (λ ast _, [Text (lit "a"); ForNode sample_node [Newline; Text (lit "b")]; Text (lit "c")]))
  = produced_code
      (mapTemplateContents sample_parser sample_template
         (λ ast _, [Text (lit "a"); Newline; Text (lit "b"); Text (lit "c")])).
Proof.
  apply (forNode_leaves_code_unchanged sample_parser sample_template
           (λ ast _, [Text (lit "a"); ForNode sample_node [Newline; Text (lit "b")];
                      Text (lit "c")])
           (λ ast _, [Text (lit "a"); Newline; Text (lit "b"); Text (lit "c")])
           sample_ast [Text (lit "a")] sample_node [Newline; Text (lit "b")] [Text (lit "c")]);
    reflexivity.
Defined.

(** ** Nodes and errors of the result *)

Section NodesAndErrors.
Variable rangeForNode : Node → Range.

Lemma scope_node_all (P : MappingTree → Prop) off text hbsRange inner source :
  Forall (all_nodes P) inner →
  (len text ≠ 0 →
   P (MappingNode {| start := Int off; end_ := Int (off + len text) |} hbsRange inner source)) →
  Forall (all_nodes P) (scope_node off text hbsRange inner source).
Proof.
  intros Hinner HP. unfold scope_node. destruct (decide (len text = 0)); [constructor|].
  constructor; [|constructor]. constructor; [by apply HP | exact Hinner].
Qed.

Lemma emitted_by_all (P : MappingTree → Prop) body :
  Forall (λ c, ∀ p off, Forall (all_nodes P) (em_nodes (emitted_by_call rangeForNode c p off)))
         body →
  ∀ p off, Forall (all_nodes P) (em_nodes (emitted_by rangeForNode body p off)).
Proof.
  induction 1 as [|c rest Hc _ IH]; intros p off; [constructor|].
  cbn [emitted_by]. destruct (em_thrown (emitted_by_call rangeForNode c p off)); [apply Hc|].
  cbn. apply Forall_app. split; [apply Hc | apply IH].
Qed.

Lemma emitted_nodes_all (P : MappingTree → Prop) :
  (∀ off text hbsRange inner source, len text ≠ 0 →
     (∀ value, source = IdentifierSource value → inner = []) →
     (∀ node, source = NodeSource node → hbsRange = rangeForNode node) →
     P (MappingNode {| start := Int off; end_ := Int (off + len text) |} hbsRange inner source)) →
  ∀ c p off, Forall (all_nodes P) (em_nodes (emitted_by_call rangeForNode c p off)).
Proof.
  intros HP.
  induction c as [| | | value | value o l | node callback IH | error]
    using call_ind; intros p off; try (by constructor).
  - cbn. apply scope_node_all; [constructor|]. intros Hlen. apply HP; [done|done|].
    intros node. discriminate.
  - rewrite emitted_by_ForNode. cbn zeta.
    pose proof (emitted_by_all P callback IH p off) as Hinner.
    destruct (em_thrown (emitted_by rangeForNode callback p off)); [constructor|].
    cbn. apply scope_node_all; [exact Hinner|]. intros Hlen. apply HP; [done| |].
    + intros value. discriminate.
    + intros node' Heq. by inversion Heq.
Qed.

Lemma emitted_by_nodes_all (P : MappingTree → Prop) :
  (∀ off text hbsRange inner source, len text ≠ 0 →
     (∀ value, source = IdentifierSource value → inner = []) →
     (∀ node, source = NodeSource node → hbsRange = rangeForNode node) →
     P (MappingNode {| start := Int off; end_ := Int (off + len text) |} hbsRange inner source)) →
  ∀ body p off, Forall (all_nodes P) (em_nodes (emitted_by rangeForNode body p off)).
Proof.
  intros HP body. apply emitted_by_all. apply Forall_forall. intros c _.
  by apply emitted_nodes_all.
Qed.

(** Only [throw] ends a call with an exception. *)
Lemma emitted_thrown c p off e :
  em_thrown (emitted_by_call rangeForNode c p off) = Some e → c = Throw e.
Proof.
  destruct c; try discriminate.
  - rewrite emitted_by_ForNode. cbn zeta.
    by destruct (em_thrown (emitted_by rangeForNode callback p off)).
  - cbn. by intros [= ->].
Qed.

Lemma emitted_by_thrown body : ∀ p off e,
  em_thrown (emitted_by rangeForNode body p off) = Some e →
  e ∈ flat_map thrown_errors body.
Proof.
  induction body as [|c rest IH]; intros p off e; [discriminate|].
  cbn [emitted_by flat_map].
  destruct (em_thrown (emitted_by_call rangeForNode c p off)) as [e'|] eqn:Hc.
  - rewrite Hc. intros [= ->]. apply emitted_thrown in Hc as ->.
    apply elem_of_app. left. cbn. apply list_elem_of_here.
  - cbn. intros H. apply elem_of_app. right. by eapply IH.
Qed.

Lemma entry_from_mono nodes nodes' thrown thrown' entry :
  nodes ⊆ nodes' → thrown ⊆ thrown' →
  entry_from rangeForNode nodes thrown entry → entry_from rangeForNode nodes' thrown' entry.
Proof.
  intros Hn Ht [(node & ? & ?) (error & ? & ?)]. split; eauto.
Qed.

Lemma emitted_errors_from c :
  ∀ p off, Forall (entry_from rangeForNode (scope_nodes c) (thrown_errors c))
                  (em_errors (emitted_by_call rangeForNode c p off)).
Proof.
  induction c as [| | | value | value o l | node callback IH | error]
    using call_ind; intros p off; try (by constructor).
  rewrite emitted_by_ForNode. cbn zeta. cbn [scope_nodes thrown_errors].
  assert (Hbody : ∀ p off,
            Forall (entry_from rangeForNode (flat_map scope_nodes callback)
                      (flat_map thrown_errors callback))
                   (em_errors (emitted_by rangeForNode callback p off))).
  { clear p off. induction IH as [|c rest Hc _ IHrest]; intros p off; [constructor|].
    cbn [emitted_by flat_map].
    assert (Hfirst : Forall (entry_from rangeForNode
                               (scope_nodes c ++ flat_map scope_nodes rest)
                               (thrown_errors c ++ flat_map thrown_errors rest))
                            (em_errors (emitted_by_call rangeForNode c p off))).
    { eapply Forall_impl; [apply Hc|]. intros entry.
      apply entry_from_mono; intros x Hx; apply elem_of_app; by left. }
    destruct (em_thrown (emitted_by_call rangeForNode c p off)); [exact Hfirst|].
    cbn. apply Forall_app. split; [exact Hfirst|].
    eapply Forall_impl; [apply IHrest|]. intros entry.
    apply entry_from_mono; intros x Hx; apply elem_of_app; by right. }
  destruct (em_thrown (emitted_by rangeForNode callback p off)) as [e|] eqn:Hthr; cbn.
  - apply Forall_app. split.
    + eapply Forall_impl; [apply Hbody|]. intros entry.
      apply entry_from_mono; [|done]. intros x Hx. by apply list_elem_of_further.
    + constructor; [|constructor]. split.
      * exists node. split; [apply list_elem_of_here | done].
      * exists e. split; [by eapply emitted_by_thrown | done].
  - eapply Forall_impl; [apply Hbody|]. intros entry.
    apply entry_from_mono; [|done]. intros x Hx. by apply list_elem_of_further.
Qed.

Lemma emitted_by_errors_from body :
  ∀ p off, Forall (entry_from rangeForNode (flat_map scope_nodes body)
                     (flat_map thrown_errors body))
                  (em_errors (emitted_by rangeForNode body p off)).
Proof.
  induction body as [|c rest IH]; intros p off; [constructor|].
  cbn [emitted_by flat_map].
  assert (Hfirst : Forall (entry_from rangeForNode
                             (scope_nodes c ++ flat_map scope_nodes rest)
                             (thrown_errors c ++ flat_map thrown_errors rest))
                          (em_errors (emitted_by_call rangeForNode c p off))).
  { eapply Forall_impl; [apply emitted_errors_from|]. intros entry.
    apply entry_from_mono; intros x Hx; apply elem_of_app; by left. }
  destruct (em_thrown (emitted_by_call rangeForNode c p off)); [exact Hfirst|].
  cbn. apply Forall_app. split; [exact Hfirst|].
  eapply Forall_impl; [apply IH|]. intros entry.
  apply entry_from_mono; intros x Hx; apply elem_of_app; by right.
Qed.
End NodesAndErrors.

(** What [rewritten_by] returns, taken apart. *)
Lemma rewritten_by_returns template callback ast r rw :
  rewritten_by template callback ast = Returns r → result r = Some rw →
  let whole := emitted_by (calculateLineOffsets template)
                 (callback ast (calculateLineOffsets template))
                 {| pen_indent := []; pen_pending := false |} 0 in
  errors r = em_errors whole ∧ code rw = em_text whole ∧
  mapping rw = MappingNode {| start := Int 0; end_ := Int (len (em_text whole)) |}
                 (calculateLineOffsets template ast) (em_nodes whole) (NodeSource ast).
Proof.
  unfold rewritten_by. cbn zeta. destruct (em_thrown _); [discriminate|].
  intros [= <-]. cbn. by intros [= <-].
Qed.

(** X4. In every mapping tree [mapTemplateContents] returns, a node whose origin
    is an AST node has [rangeForNode] of that very node as its source range
    (the root too), and a node whose origin is an identifier has no
    children. *)
Theorem origins_match_source_ranges preprocess template callback ast r rw :
  preprocess template = Parsed ast →
  mapTemplateContents preprocess template callback = Returns r →
  result r = Some rw →
  all_nodes (origin_consistent (calculateLineOffsets template)) (mapping rw).
Proof.
  intros Hparse Hret Hres.
  rewrite (mapTemplateContents_returns_reading _ _ _ _ Hparse) in Hret.
  destruct (rewritten_by_returns _ _ _ _ _ Hret Hres) as (_ & _ & ->).
  constructor; [reflexivity|]. cbn [children].
  apply emitted_by_nodes_all.
  intros off text hbsRange inner source _ Hid Hnode. unfold origin_consistent. cbn.
  destruct source as [node|id]; [by apply Hnode | by eapply Hid].
Qed.

Lemma origins_match_source_ranges_witness :
  ∃ r rw,
    mapTemplateContents sample_parser sample_template
      (λ ast _, [ForNode ast [Text (lit "a"); IdentifierCall (lit "x") 100 None;
                              ForNode sample_node [Text (lit "b")]]]) = Returns r ∧
    result r = Some rw ∧
    all_nodes (origin_consistent sample_rangeForNode) (mapping rw).
Proof.
  eexists _, _. split; [vm_compute; reflexivity|]. split; [reflexivity|].
  eapply (origins_match_source_ranges sample_parser sample_template
            (λ ast _, [ForNode ast [Text (lit "a"); IdentifierCall (lit "x") 100 None;
                                    ForNode sample_node [Text (lit "b")]]]) sample_ast);
    [reflexivity | vm_compute; reflexivity | reflexivity].
Defined.

(** X5. Every node below the root of a returned mapping tree has a non-empty
    output range: a scope that leaves no text leaves no node, at any depth. *)
Theorem nodes_cover_text preprocess template callback ast r rw :
  preprocess template = Parsed ast →
  mapTemplateContents preprocess template callback = Returns r →
  result r = Some rw →
  Forall (all_nodes covers_text) (children (mapping rw)).
Proof.
  intros Hparse Hret Hres.
  rewrite (mapTemplateContents_returns_reading _ _ _ _ Hparse) in Hret.
  destruct (rewritten_by_returns _ _ _ _ _ Hret Hres) as (_ & _ & ->).
  cbn [children]. apply emitted_by_nodes_all.
  intros off text hbsRange inner source Hlen _ _.
  exists off, (off + len text). split; [reflexivity|].
  pose proof (len_nonneg text). lia.
Qed.

Lemma nodes_cover_text_witness :
  ∃ r rw,
    mapTemplateContents sample_parser sample_template
      (λ ast _, [ForNode ast [ForNode sample_node [Text []]; Text (lit "a");
                              IdentifierCall [] 0 None]]) = Returns r ∧
    result r = Some rw ∧
    Forall (all_nodes covers_text) (children (mapping rw)).
Proof.
  eexists _, _. split; [vm_compute; reflexivity|]. split; [reflexivity|].
  eapply (nodes_cover_text sample_parser sample_template
            (λ ast _, [ForNode ast [ForNode sample_node [Text []]; Text (lit "a");
                                    IdentifierCall [] 0 None]]) sample_ast);
    [reflexivity | vm_compute; reflexivity | reflexivity].
Defined.

(** X6. Every entry of the returned errors list has the source range of a node
    the driver passed to [forNode] as its location and the message of an error
    the driver threw as its message: [identifier] calls and the engine itself
    add none. *)
Theorem errors_come_from_failed_scopes preprocess template callback ast r :
  preprocess template = Parsed ast →
  mapTemplateContents preprocess template callback = Returns r →
  let rangeForNode := calculateLineOffsets template in
  Forall (entry_from rangeForNode
            (flat_map scope_nodes (callback ast rangeForNode))
            (flat_map thrown_errors (callback ast rangeForNode)))
         (errors r).
Proof.
  intros Hparse Hret rangeForNode.
  rewrite (mapTemplateContents_returns_reading _ _ _ _ Hparse) in Hret.
  unfold rewritten_by in Hret. cbn zeta in Hret.
  destruct (em_thrown _); [discriminate|]. inversion Hret; subst r. cbn [errors].
  apply emitted_by_errors_from.
Qed.

Lemma errors_come_from_failed_scopes_witness :
  ∃ r,
    mapTemplateContents sample_parser sample_template
      (λ ast _, [ForNode ast [ForNode sample_node [Text (lit "a"); Throw boom];
                              Throw inner_boom]]) = Returns r ∧
    Forall (entry_from sample_rangeForNode [sample_ast; sample_node] [boom; inner_boom])
           (errors r).
Proof.
  eexists. split; [vm_compute; reflexivity|].
  eapply (errors_come_from_failed_scopes sample_parser sample_template
            (λ ast _, [ForNode ast [ForNode sample_node [Text (lit "a"); Throw boom];
                                    Throw inner_boom]]) sample_ast);
    [reflexivity | vm_compute; reflexivity].
Defined.

(** ** Scopes that leave text *)

(** X7. A [forNode] or [identifier] call whose callback returns with the
    offset moved appends the callback's segments, in order, to the parent's
    segment list and exactly one node to the parent's child list: from the
    offset before the call to the offset after it, with the callback's nodes
    as children. The offset and the errors stay as the callback left them. *)
Theorem scope_with_text_commits rangeForNode hbsRange source callback st st2 :
  scoped st →
  run rangeForNode callback (enter st) = (Normal (), st2) →
  offset st2 ≠ offset st →
  ∃ st' segs maps,
    captureMapping hbsRange source (run rangeForNode callback) st = (Normal (), st') ∧
    segmentsStack st2 = segs :: segmentsStack st ∧
    mappingsStack st2 = maps :: mappingsStack st ∧
    segmentsStack st' = push_top segs (segmentsStack st) ∧
    mappingsStack st' =
      push_top [MappingNode {| start := Int (offset st); end_ := Int (offset st2) |}
                  hbsRange maps source] (mappingsStack st) ∧
    offset st < offset st2 ∧
    offset st2 = offset st + len (join segs) ∧
    offset st' = offset st2 ∧
    collected st' = collected st2.
Proof.
  intros Hsc Hrun Hoff.
  destruct (run_appended _ _ _ _ _ (enter_scoped st) Hrun) as (segs & maps & errs & Happ).
  erewrite captureMapping_normal by eauto.
  rewrite decide_False by congruence.
  pose proof (nested_le _ _ _ (app_nested _ _ _ _ _ Happ)) as Hle.
  destruct Happ as [Hss Hms Ho _ _]. cbn in Hss, Hms, Ho, Hle.
  eexists _, segs, maps. split; [reflexivity|]. cbn.
  repeat split; try done. lia.
Qed.

Lemma scope_with_text_commits_witness :
  ∃ st',
    perform sample_rangeForNode
      (ForNode sample_node [Text (lit "a"); IdentifierCall (lit "b") 1 None])
      (set_offset 5 (set_segmentsStack [[lit "hello"]] initial)) = (Normal (), st') ∧
    segmentsStack st' = [[lit "hello"; lit "a"; lit "b"]] ∧
    mappingsStack st' =
      [[MappingNode {| start := Int 5; end_ := Int 7 |} (sample_rangeForNode sample_node)
          [MappingNode {| start := Int 6; end_ := Int 7 |} {| start := Int 1; end_ := Int 2 |} []
             (IdentifierSource {| name := lit "b" |})]
          (NodeSource sample_node)]] ∧
    offset st' = 7.
Proof.
  edestruct (scope_with_text_commits sample_rangeForNode
               (sample_rangeForNode sample_node) (NodeSource sample_node)
               [Text (lit "a"); IdentifierCall (lit "b") 1 None]
               (set_offset 5 (set_segmentsStack [[lit "hello"]] initial)))
    as (st' & segs & maps & Hrun & Hss2 & Hms2 & Hss & Hms & _ & _ & Hoff & _).
  - split; discriminate.
  - vm_compute. reflexivity.
  - vm_compute. discriminate.
  - exists st'. split; [exact Hrun|].
    vm_compute in Hss2, Hms2. inversion Hss2; subst segs. inversion Hms2; subst maps.
    repeat split; assumption.
Defined.

(** ** Indentation *)

Lemma indent_units_snoc k : indent_units k ++ lit "  " = indent_units (S k).
Proof.
  unfold indent_units. induction k as [|k IH]; [done|].
  cbn [replicate concat]. rewrite <- app_assoc, IH. done.
Qed.

Lemma indent_units_drop k : drop 2 (indent_units k) = indent_units (k - 1).
Proof. destruct k as [|k]; [done|]. cbn. by rewrite Nat.sub_0_r. Qed.

Section IndentUnits.
Variable rangeForNode : Node → Range.

Lemma emitted_pen_units c :
  ∀ p off k, pen_indent p = indent_units k →
    ∃ k', pen_indent (em_pen (emitted_by_call rangeForNode c p off)) = indent_units k'.
Proof.
  induction c as [| | | value | value o l | node callback IH | error]
    using call_ind; intros p off k Hk; try (by exists k).
  - exists (S k). cbn. by rewrite Hk, indent_units_snoc.
  - exists (k - 1)%nat. cbn. by rewrite Hk, indent_units_drop.
  - rewrite emitted_by_ForNode. cbn zeta.
    assert (Hbody : ∀ p off k, pen_indent p = indent_units k →
              ∃ k', pen_indent (em_pen (emitted_by rangeForNode callback p off))
                    = indent_units k').
    { clear p off k Hk. induction IH as [|c rest Hc _ IHrest]; intros p off k Hk; [by exists k|].
      cbn [emitted_by]. destruct (Hc p off k Hk) as [k1 Hk1].
      destruct (em_thrown (emitted_by_call rangeForNode c p off)); [by exists k1|].
      cbn. by eapply IHrest. }
    destruct (Hbody p off k Hk) as [k' Hk'].
    exists k'. by destruct (em_thrown (emitted_by rangeForNode callback p off)).
Qed.

Lemma emitted_by_pen_units body :
  ∀ p off k, pen_indent p = indent_units k →
    ∃ k', pen_indent (em_pen (emitted_by rangeForNode body p off)) = indent_units k'.
Proof.
  induction body as [|c rest IH]; intros p off k Hk; [by exists k|].
  cbn [emitted_by]. destruct (emitted_pen_units c p off k Hk) as [k1 Hk1].
  destruct (em_thrown (emitted_by_call rangeForNode c p off)); [by exists k1|].
  cbn. by eapply IH.
Qed.
End IndentUnits.

(** X8. Whatever the driver does, and whether it returns or throws, the
    indentation prefix is a whole number of two-space units; so [dedent()]
    after [indent()] gives back the prefix there was, although the one puts
    its unit at the end of the prefix and the other takes two characters off
    its front. [dedent()] takes one unit off, and none off the empty prefix. *)
Theorem indentation_is_whole_units rangeForNode body :
  ∃ k,
    indent (run rangeForNode body initial).2 = indent_units k ∧
    indent (emit_dedent (emit_indent (run rangeForNode body initial).2).2).2
      = indent (run rangeForNode body initial).2 ∧
    indent (emit_dedent (run rangeForNode body initial).2).2 = indent_units (k - 1).
Proof.
  assert (Hinit : scoped initial) by (split; discriminate).
  destruct (run rangeForNode body initial) as [comp st] eqn:Hrun.
  pose proof (run_tells _ _ _ _ _ Hinit Hrun) as (_ & Hpen & _).
  destruct (emitted_by_pen_units rangeForNode body (pen_of initial) (offset initial) 0 eq_refl)
    as [k Hk].
  rewrite <- Hpen in Hk. cbn in Hk. exists k. cbn [snd].
  split; [exact Hk|]. split.
  - cbn. rewrite Hk, indent_units_snoc, indent_units_drop. f_equal. lia.
  - cbn. by rewrite Hk, indent_units_drop.
Qed.

Lemma emit_newline_run_once rangeForNode st :
  scoped st →
  run rangeForNode [Newline] st =
    (Normal (), set_needsIndent true
       (set_segmentsStack (push_top [[LF]] (segmentsStack st)) (set_offset (offset st + 1) st))).
Proof. intros Hsc. rewrite run_cons. cbn [perform]. by rewrite (emit_newline_run _ Hsc). Qed.

Lemma emitted_texts rangeForNode values :
  ∀ prefix off,
    let r := emitted_by rangeForNode (map Text values)
               {| pen_indent := prefix; pen_pending := false |} off in
    em_text r = concat values ∧ em_thrown r = None ∧
    em_pen r = {| pen_indent := prefix; pen_pending := false |}.
Proof.
  induction values as [|v vs IH]; intros prefix off; [done|].
  cbn [map emitted_by emitted_by_call em_thrown em_text em_pen pen_indent]. cbn zeta.
  destruct (IH prefix (off + len (text_with_indent
                                    {| pen_indent := prefix; pen_pending := false |} v)))
    as (Ht & Hthr & Hpen).
  rewrite Ht, Hthr, Hpen. done.
Qed.

Lemma emitted_line rangeForNode p off value values :
  let r := emitted_by rangeForNode (Newline :: map Text (value :: values)) p off in
  em_text r = [LF] ++ pen_indent p ++ value ++ concat values ∧ em_thrown r = None ∧
  pen_pending (em_pen r) = false.
Proof.
  cbn [map emitted_by emitted_by_call em_thrown em_text em_pen pen_indent]. cbn zeta.
  pose proof (emitted_texts rangeForNode values (pen_indent p)) as H.
  rewrite (proj1 (H _)), (proj1 (proj2 (H _))), (proj2 (proj2 (H _))).
  cbn. by rewrite <- app_assoc.
Qed.

(** X9. A line gets the indentation prefix once, before its first text:
    [newline()] followed by one or more [text()] calls leaves the line break,
    the prefix and the texts, and no indentation is pending afterwards.
    [newline()] alone leaves only the line break, so blank lines carry no
    indentation. *)
Theorem line_gets_prefix_once rangeForNode st value values :
  scoped st →
  ∃ st1 st2 segs,
    run rangeForNode [Newline] st = (Normal (), st1) ∧
    segmentsStack st1 = push_top [[LF]] (segmentsStack st) ∧
    offset st1 = offset st + 1 ∧
    run rangeForNode (Newline :: map Text (value :: values)) st = (Normal (), st2) ∧
    segmentsStack st2 = push_top segs (segmentsStack st) ∧
    join segs = [LF] ++ indent st ++ value ++ concat values ∧
    offset st2 = offset st + len (join segs) ∧
    needsIndent st2 = false.
Proof.
  intros Hsc.
  destruct (run rangeForNode (Newline :: map Text (value :: values)) st)
    as [comp2 st2] eqn:Hrun2.
  pose proof (run_tells _ _ _ _ _ Hsc Hrun2) as ((segs2 & Happ2 & Hjoin2) & Hpen2 & Hcomp2).
  destruct (emitted_line rangeForNode (pen_of st) (offset st) value values)
    as (Ht & Hthr & Hpen).
  rewrite Ht in Hjoin2. rewrite Hthr in Hcomp2. subst comp2.
  rewrite <- Hpen2 in Hpen. cbn in Hpen.
  eexists _, st2, segs2.
  split; [by apply emit_newline_run_once|].
  split; [reflexivity|]. split; [reflexivity|]. split; [reflexivity|].
  split; [by destruct Happ2|]. split; [exact Hjoin2|].
  split; [by destruct Happ2 | exact Hpen].
Qed.

Lemma line_gets_prefix_once_witness :
  ∃ st2 segs,
    run sample_rangeForNode [Newline; Text (lit "a"); Text (lit "b")]
      (set_indent (lit "    ") initial) = (Normal (), st2) ∧
    segmentsStack st2 = push_top segs [[]] ∧
    join segs = [LF] ++ lit "    " ++ lit "a" ++ lit "b".
Proof.
  destruct (line_gets_prefix_once sample_rangeForNode (set_indent (lit "    ") initial)
              (lit "a") [lit "b"])
    as (st1 & st2 & segs & _ & _ & _ & Hrun & Hss & Hjoin & _); [split; discriminate|].
  exists st2, segs. split; [exact Hrun|]. split; [exact Hss|]. exact Hjoin.
Defined.

(** ** The line-offset index, further *)

Lemma split_lines_length template :
  length (split_lines template) = S (count_line_breaks template).
Proof.
  induction template as [|c rest IH]; cbn; [done|].
  destruct (c =? LF)%N; cbn; [by rewrite IH|].
  destruct (split_lines rest); cbn in *; done.
Qed.

Lemma lines_total_app (a b : list jsstring) :
  foldr (λ l acc, len l + 1 + acc) 0 (a ++ b) =
    foldr (λ l acc, len l + 1 + acc) 0 a + foldr (λ l acc, len l + 1 + acc) 0 b.
Proof. induction a as [|x a IH]; cbn; [done|]. rewrite IH. lia. Qed.

Lemma lines_total_nonneg (a : list jsstring) :
  0 ≤ foldr (λ l acc, len l + 1 + acc) 0 a.
Proof. induction a as [|x a IH]; cbn; [lia|]. pose proof (len_nonneg x). lia. Qed.

Lemma line_start_nonneg lines n : 0 ≤ line_start lines n.
Proof. apply lines_total_nonneg. Qed.

(** Each line starts where the one before it ends, after its terminator. *)
Lemma line_start_next lines n l :
  lines !! n = Some l →
  line_start lines (S (S n)) = line_start lines (S n) + len l + 1.
Proof.
  intros Hl. unfold line_start.
  replace (S (S n) - 1)%nat with (S n) by lia. replace (S n - 1)%nat with n by lia.
  rewrite (take_S_r _ _ _ Hl), lines_total_app. cbn. lia.
Qed.

Lemma line_start_mono lines m n : (m ≤ n)%nat → line_start lines m ≤ line_start lines n.
Proof.
  intros Hmn. unfold line_start.
  replace (n - 1)%nat with ((m - 1) + ((n - 1) - (m - 1)))%nat by lia.
  rewrite <- (take_drop (m - 1) (take (m - 1 + (n - 1 - (m - 1))) lines)).
  rewrite take_take, (Nat.min_l (m - 1)) by lia.
  rewrite lines_total_app.
  pose proof (lines_total_nonneg (drop (m - 1) (take (m - 1 + (n - 1 - (m - 1))) lines))).
  lia.
Qed.

Lemma position_offset_int template l c :
  (l ≤ S (count_line_breaks template))%nat →
  position_offset template {| line := l; column := c |}
    = Int (line_start (split_lines template) l + c).
Proof.
  intros Hl. unfold position_offset. cbn [line column].
  rewrite decide_True; [done|]. by rewrite split_lines_length.
Qed.

Lemma position_offset_nan template l c :
  (S (count_line_breaks template) < l)%nat →
  position_offset template {| line := l; column := c |} = NaN.
Proof.
  intros Hl. unfold position_offset. cbn [line column].
  rewrite decide_False; [done|]. rewrite split_lines_length. lia.
Qed.

(** The range of a node that is not a [TextNode]. *)
Lemma calculateLineOffsets_plain template node :
  type node ≠ "TextNode" →
  calculateLineOffsets template node =
    {| start := position_offset template (loc_start (loc node));
       end_ := position_offset template (loc_end (loc node)) |}.
Proof.
  intros Htype. unfold calculateLineOffsets. cbn zeta.
  destruct (loc node) as [[l1 c1] [l2 c2]]. cbn [loc_start loc_end line column].
  rewrite !offsets_lookup. by rewrite decide_False.
Qed.

(** X10. An endpoint of [rangeForNode(node)] is [NaN] exactly when its line
    number is greater than the number of lines of the template, which is one
    more than the number of line feeds in it; line 0 is accepted and counts as
    line 1. This holds for text nodes too. *)
Theorem rangeForNode_nan_past_last_line template node :
  (start (calculateLineOffsets template node) = NaN ↔
     (S (count_line_breaks template) < line (loc_start (loc node)))%nat) ∧
  (end_ (calculateLineOffsets template node) = NaN ↔
     (S (count_line_breaks template) < line (loc_end (loc node)))%nat) ∧
  (∀ tag c, start (calculateLineOffsets template (as_element (node_at tag 0 c 0 c))) = Int c).
Proof.
  assert (Hthird : ∀ tag c,
     start (calculateLineOffsets template (as_element (node_at tag 0 c 0 c))) = Int c).
  { intros tag c. rewrite calculateLineOffsets_plain by done.
    cbn [start as_element node_at loc loc_start].
    rewrite position_offset_int by lia. done. }
  split; [|split; [|exact Hthird]]; clear Hthird.
  - unfold calculateLineOffsets. cbn zeta.
    destruct (loc node) as [[l1 c1] [l2 c2]]. cbn [loc_start loc_end line column].
    rewrite !offsets_lookup.
    assert (H1 : (l1 ≤ S (count_line_breaks template))%nat ∨
                 (S (count_line_breaks template) < l1)%nat) by lia.
    destruct H1 as [H1|H1];
      [rewrite (position_offset_int _ _ _ H1) | rewrite (position_offset_nan _ _ _ H1)];
      destruct (decide (type node = "TextNode")); try destruct (decide (_ ≠ _));
      cbn; split; try done; try lia.
  - unfold calculateLineOffsets. cbn zeta.
    destruct (loc node) as [[l1 c1] [l2 c2]]. cbn [loc_start loc_end line column].
    rewrite !offsets_lookup.
    assert (H2 : (l2 ≤ S (count_line_breaks template))%nat ∨
                 (S (count_line_breaks template) < l2)%nat) by lia.
    destruct H2 as [H2|H2];
      [rewrite (position_offset_int _ _ _ H2) | rewrite (position_offset_nan _ _ _ H2)];
      destruct (decide (type node = "TextNode")); try destruct (decide (_ ≠ _));
      cbn; split; try done; try lia.
Qed.

(** X11. For a node that is not a text node, with its start line among the
    lines of the template, the start offset is the number of characters of the
    template before that line plus the column: what follows the offset in the
    template is what follows the column in the text from that line on. *)
Theorem rangeForNode_start_addresses_column template node :
  type node ≠ "TextNode" →
  (1 ≤ line (loc_start (loc node)) ≤ S (count_line_breaks template))%nat →
  0 ≤ column (loc_start (loc node)) →
  ∃ k, start (calculateLineOffsets template node) = Int k ∧ 0 ≤ k ∧
    drop (Z.to_nat k) template =
      drop (Z.to_nat (column (loc_start (loc node))))
           (unsplit (drop (line (loc_start (loc node)) - 1) (split_lines template))).
Proof.
  intros Htype Hline Hcol. rewrite (calculateLineOffsets_plain _ _ Htype). cbn [start].
  destruct (loc_start (loc node)) as [l c]. cbn [line column] in *.
  rewrite position_offset_int by lia.
  pose proof (line_start_nonneg (split_lines template) l) as Hls.
  eexists. split; [reflexivity|]. split; [lia|].
  rewrite <- (line_start_locates (split_lines template) l)
    by (rewrite split_lines_length; lia).
  rewrite unsplit_split_lines, drop_drop. f_equal. lia.
Qed.

Lemma rangeForNode_start_addresses_column_witness :
  ∃ k, start (calculateLineOffsets (lit "ab" ++ [LF] ++ lit "cde")
                (node_at "MustacheStatement" 2 1 2 3)) = Int k ∧
       drop (Z.to_nat k) (lit "ab" ++ [LF] ++ lit "cde") = lit "de".
Proof.
  destruct (rangeForNode_start_addresses_column (lit "ab" ++ [LF] ++ lit "cde")
              (node_at "MustacheStatement" 2 1 2 3))
    as (k & Hk & _ & Hdrop); [done | vm_compute; lia | vm_compute; discriminate |].
  exists k. split; [exact Hk|]. rewrite Hdrop. reflexivity.
Defined.

Lemma unsplit_length lines :
  lines ≠ [] →
  line_start lines (length lines) + len (default [] (last lines)) = len (unsplit lines).
Proof.
  unfold line_start. induction lines as [|l rest IH]; [done|]. intros _.
  destruct rest as [|l' rest'].
  - cbn. lia.
  - specialize (IH ltac:(done)).
    replace (length (l :: l' :: rest') - 1)%nat with (S (length (l' :: rest') - 1))
      by (cbn; lia).
    cbn [take foldr].
    change (unsplit (l :: l' :: rest')) with (l ++ [LF] ++ unsplit (l' :: rest')).
    change (last (l :: l' :: rest')) with (last (l' :: rest')).
    rewrite !len_app. change (len [LF]) with 1. lia.
Qed.

(** X12. A node that is not a text node and reaches from line 1, column 0 to
    the end of the last line gets the range of the whole template,
    [{0, template.length}]. *)
Theorem rangeForNode_whole_template template node :
  type node ≠ "TextNode" →
  loc_start (loc node) = {| line := 1; column := 0 |} →
  loc_end (loc node) =
    {| line := length (split_lines template);
       column := len (default [] (last (split_lines template))) |} →
  calculateLineOffsets template node = {| start := Int 0; end_ := Int (len template) |}.
Proof.
  intros Htype Hstart Hend. rewrite (calculateLineOffsets_plain _ _ Htype), Hstart, Hend.
  rewrite !position_offset_int by (rewrite ?split_lines_length; lia).
  rewrite (unsplit_length _ (split_lines_not_nil template)), unsplit_split_lines.
  done.
Qed.

Lemma rangeForNode_whole_template_witness :
  calculateLineOffsets (lit "ab" ++ [LF] ++ lit "cde") (node_at "Template" 1 0 2 3)
  = {| start := Int 0; end_ := Int 6 |}.
Proof.
  apply (rangeForNode_whole_template (lit "ab" ++ [LF] ++ lit "cde")
           (node_at "Template" 1 0 2 3)); [done | reflexivity | reflexivity].
Defined.

Lemma whitespace_prefix_le s : (length (whitespace_prefix s) ≤ length s)%nat.
Proof.
  induction s as [|c rest IH]; cbn; [lia|]. destruct (is_whitespace c); cbn; lia.
Qed.

(** Text that is not all whitespace keeps a character between its leading and
    its trailing whitespace. *)
Lemma whitespace_runs_apart s :
  forallb is_whitespace s = false →
  leading_whitespace s + trailing_whitespace s < len s.
Proof.
  unfold leading_whitespace, trailing_whitespace, len.
  induction s as [|c rest IH]; [done|].
  cbn [forallb whitespace_prefix rev]. destruct (is_whitespace c) eqn:Hc.
  - cbn [andb]. intros Hrest. specialize (IH Hrest).
    rewrite whitespace_prefix_app, forallb_rev, Hrest. cbn [length]. lia.
  - intros _. rewrite whitespace_prefix_app.
    destruct (forallb is_whitespace (rev rest)).
    + cbn. rewrite Hc, app_nil_r, length_rev. cbn. lia.
    + pose proof (whitespace_prefix_le (rev rest)). rewrite length_rev in *. cbn. lia.
Qed.

(** X13. The range of a text node lies within the range its location gets
    under any other type tag, and trimming never empties it: when the node
    spans at least as many characters as its text has, and the text is not
    empty, the start stays before the end. *)
Theorem text_trimming_stays_inside template node s e :
  type node = "TextNode" →
  calculateLineOffsets template (as_element node) = {| start := Int s; end_ := Int e |} →
  ∃ s' e',
    calculateLineOffsets template node = {| start := Int s'; end_ := Int e' |} ∧
    s ≤ s' ∧ e' ≤ e ∧
    (chars node ≠ [] → len (chars node) ≤ e - s → s' < e').
Proof.
  intros Htype Hplain. rewrite calculateLineOffsets_plain in Hplain by done.
  cbn [as_element loc] in Hplain. inversion Hplain as [[Hs He]]. clear Hplain.
  unfold calculateLineOffsets. cbn zeta.
  destruct (loc node) as [[l1 c1] [l2 c2]]. cbn [loc_start loc_end line column] in *.
  rewrite !offsets_lookup, Hs, He. rewrite decide_True by done.
  rewrite leading_match_length, trailing_match_length.
  pose proof (len_nonneg (whitespace_prefix (chars node))) as Hlead.
  pose proof (len_nonneg (whitespace_prefix (rev (chars node)))) as Htrail.
  fold (leading_whitespace (chars node)) in Hlead.
  fold (trailing_whitespace (chars node)) in Htrail.
  destruct (decide (leading_whitespace (chars node) ≠ len (chars node))) as [Hne|Heq].
  - cbn. eexists _, _. split; [reflexivity|]. split; [lia|]. split; [lia|].
    intros _ Hspan.
    assert (Hnot : forallb is_whitespace (chars node) = false).
    { destruct (forallb is_whitespace (chars node)) eqn:Hall; [|done].
      exfalso. apply Hne. unfold leading_whitespace. by rewrite whitespace_prefix_all. }
    pose proof (whitespace_runs_apart _ Hnot). lia.
  - eexists _, _. split; [reflexivity|]. split; [lia|]. split; [lia|].
    intros Hchars Hspan.
    assert (0 < len (chars node)); [|lia].
    unfold len. destruct (chars node); [done|]. cbn. lia.
Qed.

Lemma text_trimming_stays_inside_witness :
  ∃ s' e',
    calculateLineOffsets (lit "a" ++ [LF] ++ lit "  b ")
      {| type := "TextNode";
         loc := {| loc_start := {| line := 1; column := 1 |};
                   loc_end := {| line := 2; column := 4 |} |};
         chars := [LF] ++ lit "  b " |}
    = {| start := Int s'; end_ := Int e' |} ∧ 1 ≤ s' ∧ e' ≤ 6 ∧ s' < e'.
Proof.
  destruct (text_trimming_stays_inside (lit "a" ++ [LF] ++ lit "  b ")
              {| type := "TextNode";
                 loc := {| loc_start := {| line := 1; column := 1 |};
                           loc_end := {| line := 2; column := 4 |} |};
                 chars := [LF] ++ lit "  b " |} 1 6)
    as (s' & e' & Hrange & Hs & He & Hlt); [reflexivity | reflexivity |].
  exists s', e'. split; [exact Hrange|]. split; [exact Hs|]. split; [exact He|].
  apply Hlt; [discriminate | vm_compute; discriminate].
Defined.

(** X14. For a node that is not a text node, whose start does not come after
    its end (an earlier line, with the start column within that line, or the
    same line and no greater column) and whose lines are lines of the
    template, the start offset is not greater than the end offset. *)
Theorem rangeForNode_keeps_order template node first :
  type node ≠ "TextNode" →
  (1 ≤ line (loc_start (loc node)))%nat →
  (line (loc_end (loc node)) ≤ S (count_line_breaks template))%nat →
  split_lines template !! (line (loc_start (loc node)) - 1)%nat = Some first →
  (line (loc_start (loc node)) = line (loc_end (loc node)) ∧
     column (loc_start (loc node)) ≤ column (loc_end (loc node))) ∨
  ((line (loc_start (loc node)) < line (loc_end (loc node)))%nat ∧
     column (loc_start (loc node)) ≤ len first + 1 ∧
     0 ≤ column (loc_end (loc node))) →
  ∃ s e, calculateLineOffsets template node = {| start := Int s; end_ := Int e |} ∧ s ≤ e.
Proof.
  intros Htype Hfirst Hlast Hline Horder.
  rewrite (calculateLineOffsets_plain _ _ Htype).
  destruct (loc_start (loc node)) as [l1 c1], (loc_end (loc node)) as [l2 c2].
  cbn [line column] in *.
  assert (l1 ≤ l2)%nat by (destruct Horder as [[-> _]|[? _]]; lia).
  rewrite !position_offset_int by lia.
  eexists _, _. split; [reflexivity|].
  destruct Horder as [[-> Hc]|(Hlt & Hc1 & Hc2)]; [lia|].
  destruct l1 as [|n]; [lia|]. replace (S n - 1)%nat with n in Hline by lia.
  pose proof (line_start_next _ _ _ Hline) as Hnext.
  pose proof (line_start_mono (split_lines template) (S (S n)) l2 ltac:(lia)). lia.
Qed.

Lemma rangeForNode_keeps_order_witness :
  ∃ s e, calculateLineOffsets (lit "ab" ++ [LF] ++ lit "cde")
           (node_at "BlockStatement" 1 2 2 0) = {| start := Int s; end_ := Int e |} ∧ s ≤ e.
Proof.
  apply (rangeForNode_keeps_order (lit "ab" ++ [LF] ++ lit "cde")
           (node_at "BlockStatement" 1 2 2 0) (lit "ab")).
  - done.
  - vm_compute. lia.
  - vm_compute. lia.
  - reflexivity.
  - right. vm_compute. repeat split; try lia; discriminate.
Defined.

(** ** Identifiers *)

(** X15. An [identifier] call never throws and records no error. Its node, when
    it leaves text, has the given offset and length (the length of the value
    when none is given) as source range, but its output range starts where
    the pending indentation starts: the prefix that [text()] puts before the
    value is part of the identifier's output range. *)
Theorem identifier_range_includes_indentation rangeForNode value hbsOffset hbsLength st :
  scoped st →
  let text := if needsIndent st then indent st ++ value else value in
  ∃ st',
    perform rangeForNode (IdentifierCall value hbsOffset hbsLength) st = (Normal (), st') ∧
    offset st' = offset st + len text ∧
    needsIndent st' = false ∧
    collected st' = collected st ∧
    mappingsStack st' =
      push_top
        (if decide (len text = 0) then []
         else [MappingNode {| start := Int (offset st); end_ := Int (offset st + len text) |}
                 {| start := Int hbsOffset;
                    end_ := Int (hbsOffset + default (len value) hbsLength) |}
                 [] (IdentifierSource {| name := value |})])
        (mappingsStack st).
Proof.
  intros Hsc text.
  destruct (perform rangeForNode (IdentifierCall value hbsOffset hbsLength) st)
    as [comp st'] eqn:Hrun.
  pose proof (perform_tells rangeForNode _ _ _ _ Hsc Hrun) as ((segs & Happ & Hjoin) & Hpen & Hcomp).
  cbn [emitted_by_call em_text em_nodes em_errors em_pen em_thrown] in *.
  change (text_with_indent (pen_of st) value) with text in *.
  subst comp. exists st'. split; [reflexivity|].
  destruct Happ as [_ Hms Hoff _ Herr].
  split; [by rewrite Hoff, Hjoin|]. split; [by inversion Hpen|].
  split; [by rewrite Herr, app_nil_r|]. exact Hms.
Qed.

Lemma identifier_range_includes_indentation_witness :
  ∃ st',
    perform sample_rangeForNode (IdentifierCall (lit "x") 7 None)
      (set_needsIndent true (set_indent (lit "  ") initial)) = (Normal (), st') ∧
    mappingsStack st' =
      [[MappingNode {| start := Int 0; end_ := Int 3 |} {| start := Int 7; end_ := Int 8 |} []
          (IdentifierSource {| name := lit "x" |})]].
Proof.
  destruct (identifier_range_includes_indentation sample_rangeForNode (lit "x") 7 None
              (set_needsIndent true (set_indent (lit "  ") initial)))
    as (st' & Hrun & _ & _ & _ & Hms); [split; discriminate|].
  exists st'. split; [exact Hrun|]. rewrite Hms. reflexivity.
Defined.
